(** * Token-list reconciliation (tokenListFactory): model and properties

    A shallow embedding of [getTokensFactory]: the per-token id refresher,
    the allow-list resolution, the contract scan, the full metadata
    reconciliation, the orchestrator [updateTokens] and the read-through
    accessor.

    Conventions of the embedding.
    - JS numbers that hold network ids, token ids, counts and delays are [Z].
    - An [async] function is a computation in the monad [M]: it threads the
      factory's state and either returns a value or throws.  A pass that is
      awaited runs to completion; work that the source starts without
      awaiting it ([updateTokens] from the accessor, the [setTimeout]
      callback) is queued in the state and run by [runBackground] and
      [fireTimer].
    - Every call to an external collaborator is appended to [trace]; the
      collaborator's answer may depend on the position of the call in the
      trace, so that two calls with the same arguments can be answered
      differently (a flaky transport).
    - [Promise.all] over a mapped array is the in-order traversal: results
      are collected in the order of the array, and the first rejection is the
      one propagated.
    - Token records are values.  The source assigns [token.id] in place; the
      assignment happens only in a pass that goes on to persist the
      network's list rebuilt with the updated records, so the store sees
      the new id through that list, as it does here.
    - [logDebug] has no effect on the state and is left out. *)

From stdpp Require Import base option list gmap sets strings.
From Stdlib Require Import ZArith Lia.

Set Warnings "-clear-no-such-hyp".

(** ** Data model *)

(** [TokenErc20] of dex-js: what the metadata probe answers. *)
Module TokenErc20.
Record t : Type := mk {
  address : string;
  symbol : option string;
  name : option string;
  decimals : Z;
}.
End TokenErc20.

(** [TokenDetails]: one cached record; [id] is the slot in the exchange. *)
Module TokenDetails.
Record t : Type := mk {
  address : string;
  id : Z;
  symbol : option string;
  name : option string;
  decimals : Z;
  image : option string;
}.

(** [token.id = v] *)
Definition set_id (token : t) (v : Z) : t :=
  mk (address token) v (symbol token) (name token) (decimals token)
     (image token).

(** [{ ...partialToken, id }] *)
Definition of_erc20 (partialToken : TokenErc20.t) (v : Z) : t :=
  mk (TokenErc20.address partialToken) v (TokenErc20.symbol partialToken)
     (TokenErc20.name partialToken) (TokenErc20.decimals partialToken) None.
End TokenDetails.

Abbreviation TokenDetails := TokenDetails.t.
Abbreviation TokenErc20 := TokenErc20.t.

(** What a rejected promise carries.  The message of the error thrown by
    [updateTokenIds] is kept structured: the network and the addresses that
    the template string interpolates. *)
Inductive Error : Type :=
  | ExternalError (message : string)
  | MaxRetriesExceeded (networkId : Z) (addresses : list string).

Inductive Result (A : Type) : Type :=
  | Ok (a : A)
  | Err (e : Error).
Arguments Ok {A} a.
Arguments Err {A} e.

Definition is_err {A} (r : Result A) : Prop :=
  match r with Ok _ => False | Err _ => True end.

(** The external calls the factory makes. *)
Inductive Call : Type :=
  | CallHasToken (networkId : Z) (tokenAddress : string)
  | CallGetTokenIdByAddress (networkId : Z) (tokenAddress : string)
  | CallGetTokenAddressById (networkId : Z) (tokenId : Z)
  | CallGetNumTokens (networkId : Z)
  | CallTcrGetTokens (networkId : Z)
  | CallGetTokenFromErc20 (networkId : Z) (tokenAddress : string).

(** Metadata read from an ERC20 contract. *)
Record Erc20Info : Type := {
  info_symbol : option string;
  info_name : option string;
  info_decimals : Z;
}.

(** The factory parameters and the imported helper's bound.  Each answer
    takes the number of external calls made before it. *)
Record Collaborators : Type := {
  exchange_hasToken : nat → Z → string → Result bool;
  exchange_getTokenIdByAddress : nat → Z → string → Result Z;
  exchange_getTokenAddressById : nat → Z → Z → Result string;
  exchange_getNumTokens : nat → Z → Result Z;
  (** [tcrApi?]: [None] when no registry is configured. *)
  tcrApi : option (nat → Z → Result (list string));
  (** the probe behind [getTokenFromErc20]; [Ok None] is the failed probe *)
  erc20_probe : nat → Z → string → Result (option Erc20Info);
  (** how many times [retry] tries again after the first attempt *)
  retry_extra : nat;
}.

(** A [setTimeout] callback waiting to fire:
    [() => updateTokenIds(networkId, failedToUpdate, maxRetries - 1, nextDelay)]
    scheduled after [timer_delay] ms. *)
Record Timer : Type := {
  timer_delay : Z;
  timer_networkId : Z;
  timer_tokens : list TokenDetails;
  timer_maxRetries : Z;
  timer_retryDelay : Z;
}.

(** The state the factory closes over, with the cache store it is given. *)
Record State : Type := {
  (** external calls made so far, oldest first *)
  trace : list Call;
  (** the token cache behind [tokenListApi], per network *)
  store : gmap Z (list TokenDetails);
  (** [areTokensUpdated] *)
  areTokensUpdated : gset Z;
  (** [updateTokens] invocations started by the accessor, suspended at
      their first [await] *)
  background : list Z;
  (** pending [setTimeout] callbacks, oldest first *)
  timers : list Timer;
  (** every [persistTokens] call made so far, oldest first *)
  persisted : list (Z * list TokenDetails);
}.

Definition set_trace (f : list Call → list Call) (s : State) : State :=
  {| trace := f (trace s); store := store s;
     areTokensUpdated := areTokensUpdated s; background := background s;
     timers := timers s; persisted := persisted s |}.

Definition set_store (f : gmap Z (list TokenDetails) → gmap Z (list TokenDetails))
    (s : State) : State :=
  {| trace := trace s; store := f (store s);
     areTokensUpdated := areTokensUpdated s; background := background s;
     timers := timers s; persisted := persisted s |}.

Definition set_areTokensUpdated (f : gset Z → gset Z) (s : State) : State :=
  {| trace := trace s; store := store s;
     areTokensUpdated := f (areTokensUpdated s); background := background s;
     timers := timers s; persisted := persisted s |}.

Definition set_background (f : list Z → list Z) (s : State) : State :=
  {| trace := trace s; store := store s;
     areTokensUpdated := areTokensUpdated s; background := f (background s);
     timers := timers s; persisted := persisted s |}.

Definition set_timers (f : list Timer → list Timer) (s : State) : State :=
  {| trace := trace s; store := store s;
     areTokensUpdated := areTokensUpdated s; background := background s;
     timers := f (timers s); persisted := persisted s |}.

Definition set_persisted
    (f : list (Z * list TokenDetails) → list (Z * list TokenDetails))
    (s : State) : State :=
  {| trace := trace s; store := store s;
     areTokensUpdated := areTokensUpdated s; background := background s;
     timers := timers s; persisted := f (persisted s) |}.

(** ** The monad of asynchronous computations *)

Definition M (A : Type) : Type := State → Result A * State.

#[global] Instance M_ret : MRet M := λ A a s, (Ok a, s).
#[global] Instance M_bind : MBind M := λ A B f m s,
  match m s with
  | (Ok a, s') => f a s'
  | (Err e, s') => (Err e, s')
  end.

(** [throw e] *)
Definition throw {A} (e : Error) : M A := λ s, (Err e, s).

(** [try { body } catch (e) { handler }]: effects of [body] stay. *)
Definition try_catch {A} (body : M A) (handler : Error → M A) : M A := λ s,
  match body s with
  | (Ok a, s') => (Ok a, s')
  | (Err e, s') => handler e s'
  end.

(** [if (c) { body }] *)
Definition when (c : bool) (body : M unit) : M unit :=
  if c then body else mret tt.

(** [await Promise.all(promises)] *)
Fixpoint promise_all {A} (promises : list (M A)) : M (list A) :=
  match promises with
  | [] => mret []
  | p :: rest => a ← p; l ← promise_all rest; mret (a :: l)
  end.

(** An external call: logged, answered by the collaborator. *)
Definition external {A} (c : Call) (answer : nat → Result A) : M A := λ s,
  (answer (length (trace s)), set_trace (λ t, t ++ [c]) s).

(** ** JS [Map] with its insertion order

    [set] on a present key replaces the value where the key sits; on an
    absent key it appends.  Iteration ([forEach], [entries]) is in that
    order. *)
Module JsMap.
Abbreviation t V := (list (string * V)) (only parsing).

Fixpoint get {V} (m : t V) (k : string) : option V :=
  match m with
  | [] => None
  | (k', v) :: rest => if decide (k' = k) then Some v else get rest k
  end.

Fixpoint set {V} (m : t V) (k : string) (v : V) : t V :=
  match m with
  | [] => [(k, v)]
  | (k', v') :: rest =>
      if decide (k' = k) then (k, v) :: rest else (k', v') :: set rest k v
  end.

(** [new Map(pairs)] *)
Definition of_list {V} (pairs : list (string * V)) : t V :=
  foldl (λ m p, set m p.1 p.2) [] pairs.

Definition keys {V} (m : t V) : list string := m.*1.
End JsMap.

(** [notEmpty] of utils, as used in [array.filter(notEmpty)]. *)
Definition filter_notEmpty {A} (l : list (option A)) : list A :=
  omap id l.

(** [Array.from({ length: n }, (_, i) => i)] *)
Definition indices (n : Z) : list Z := Z.of_nat <$> seq 0 (Z.to_nat n).

(** ** The factory *)

(** [UpdateTokenIdResult] *)
Record UpdateTokenIdResult : Type := {
  token : TokenDetails;
  remove : bool;
  failed : bool;
}.

Section Factory.

Context (env : Collaborators).

(** *** Collaborators *)

(** Modelled from the spec: the token cache store [tokenListApi] (its class
    is not part of the sources at hand).  [getTokens(networkId)] is the
    ordered sequence cached for the network, empty when there is none. *)
Definition tokenListApi_getTokens (networkId : Z) (s : State) : list TokenDetails :=
  default [] (store s !! networkId).

(** Modelled from the spec: [tokenListApi.persistTokens] overwrites the
    network's list. *)
Definition tokenListApi_persistTokens (networkId : Z) (tokenList : list TokenDetails)
    : M unit := λ s,
  (Ok tt, set_persisted (λ l, l ++ [(networkId, tokenList)])
            (set_store (insert networkId tokenList) s)).

(** [tokenListApi.getTokens(networkId)] inside an async function. *)
Definition getCached (networkId : Z) : M (list TokenDetails) := λ s,
  (Ok (tokenListApi_getTokens networkId s), s).

Definition exchangeApi_hasToken (networkId : Z) (tokenAddress : string) : M bool :=
  external (CallHasToken networkId tokenAddress)
    (λ n, exchange_hasToken env n networkId tokenAddress).

Definition exchangeApi_getTokenIdByAddress (networkId : Z) (tokenAddress : string)
    : M Z :=
  external (CallGetTokenIdByAddress networkId tokenAddress)
    (λ n, exchange_getTokenIdByAddress env n networkId tokenAddress).

Definition exchangeApi_getTokenAddressById (networkId tokenId : Z) : M string :=
  external (CallGetTokenAddressById networkId tokenId)
    (λ n, exchange_getTokenAddressById env n networkId tokenId).

Definition exchangeApi_getNumTokens (networkId : Z) : M Z :=
  external (CallGetNumTokens networkId)
    (λ n, exchange_getNumTokens env n networkId).

(** Modelled from the spec: the metadata resolver [getTokenFromErc20] given
    to the factory (its body is not part of the sources at hand).  Given a
    bare address it resolves the metadata of that address, or answers null
    when the probe fails. *)
Definition getTokenFromErc20 (networkId : Z) (tokenAddress : string)
    : M (option TokenErc20) :=
  info ← external (CallGetTokenFromErc20 networkId tokenAddress)
           (λ n, erc20_probe env n networkId tokenAddress);
  mret ((λ i, TokenErc20.mk tokenAddress (info_symbol i) (info_name i)
                (info_decimals i)) <$> info).

(** Modelled from the spec: [retry] of utils (not part of the sources at
    hand).  It invokes the operation and, on failure, invokes it again with
    no delay, up to a fixed number of attempts; the last failure is
    propagated. *)
Fixpoint retry_from {A} (left : nat) (op : M A) : M A :=
  match left with
  | O => op
  | S left' => try_catch op (λ _, retry_from left' op)
  end.

Definition retry {A} (op : M A) : M A := retry_from (retry_extra env) op.

(** [setTimeout(callback, delay)] *)
Definition setTimeout (t : Timer) : M unit := λ s,
  (Ok tt, set_timers (λ l, l ++ [t]) s).

(** *** Per-token id refresher *)

Definition updateTokenIdOrIndicateFailure (networkId : Z) (token : TokenDetails)
    : M UpdateTokenIdResult :=
  try_catch
    (hasToken ← exchangeApi_hasToken networkId (TokenDetails.address token);
     if negb hasToken then
       mret {| token := token; remove := true; failed := false |}
     else
       id ← exchangeApi_getTokenIdByAddress networkId (TokenDetails.address token);
       mret {| token := TokenDetails.set_id token id; remove := false;
               failed := false |})
    (λ _, mret {| token := token; remove := false; failed := true |}).

(** The three collections filled by [results.forEach]. *)
Record Classified : Type := {
  updated : gmap string TokenDetails;
  failedToUpdate : list TokenDetails;
  toRemove : gset string;
}.

Definition classify_step (c : Classified) (r : UpdateTokenIdResult) : Classified :=
  if remove r then
    {| updated := updated c; failedToUpdate := failedToUpdate c;
       toRemove := toRemove c ∪ {[TokenDetails.address (token r)]} |}
  else if failed r then
    {| updated := updated c; failedToUpdate := failedToUpdate c ++ [token r];
       toRemove := toRemove c |}
  else
    {| updated := <[TokenDetails.address (token r) := token r]> (updated c);
       failedToUpdate := failedToUpdate c; toRemove := toRemove c |}.

Definition classify (results : list UpdateTokenIdResult) : Classified :=
  foldl classify_step
    {| updated := ∅; failedToUpdate := []; toRemove := ∅ |} results.

(** The [reduce] that builds the new list from the current one. *)
Definition rebuild (c : Classified) (current : list TokenDetails) : list TokenDetails :=
  foldl (λ acc token,
           if decide (TokenDetails.address token ∈ toRemove c) then acc
           else acc ++ [default token (updated c !! TokenDetails.address token)])
        [] current.

Definition updateTokenIds (networkId : Z) (tokens : list TokenDetails)
    (maxRetries retryDelay : Z) (exponentialBackOff : bool) : M unit :=
  if bool_decide (maxRetries ≤ 0)%Z then
    throw (MaxRetriesExceeded networkId (TokenDetails.address <$> tokens))
  else
    results ← promise_all (updateTokenIdOrIndicateFailure networkId <$> tokens);
    let c := classify results in
    when (bool_decide (0 < size (toRemove c)) || bool_decide (0 < size (updated c)))
      (current ← getCached networkId;
       tokenListApi_persistTokens networkId (rebuild c current));;
    when (bool_decide (0 < length (failedToUpdate c)))
      (let nextDelay := (retryDelay * (if exponentialBackOff then 2 else 1))%Z in
       setTimeout {| timer_delay := retryDelay; timer_networkId := networkId;
                     timer_tokens := failedToUpdate c;
                     timer_maxRetries := (maxRetries - 1)%Z;
                     timer_retryDelay := nextDelay |}).

(** *** Allow-list resolution and contract scan *)

Definition getErc20DetailsOrAddress (networkId : Z) (tokenAddress : string)
    : M (TokenErc20 + string) :=
  erc20Details ← getTokenFromErc20 networkId tokenAddress;
  mret (match erc20Details with
        | Some d => inl d
        | None => inr tokenAddress
        end).

Definition fetchAddressesAndIds (networkId numTokens : Z) : M (JsMap.t Z) :=
  tokenAddressIdPairs ←
    promise_all ((λ tokenId,
                    tokenAddress ← exchangeApi_getTokenAddressById networkId tokenId;
                    mret (tokenAddress, tokenId)) <$> indices numTokens);
  mret (JsMap.of_list tokenAddressIdPairs).

Definition fetchTcrAddresses (networkId : Z) : M (gset string) :=
  match tcrApi env with
  | None => mret ∅
  | Some getTokens =>
      l ← external (CallTcrGetTokens networkId) (λ n, getTokens n networkId);
      mret (list_to_set l)
  end.

Definition _getFilteredIdsMap (networkId numTokens : Z) : M (JsMap.t Z) :=
  tcrAddressesSet ← retry (fetchTcrAddresses networkId);
  listedAddressesAndIds ← retry (fetchAddressesAndIds networkId numTokens);
  if bool_decide (0 < size tcrAddressesSet) then
    mret (JsMap.of_list
            (filter (λ p, p.1 ∈ tcrAddressesSet) listedAddressesAndIds))
  else
    tokensConfig ← getCached networkId;
    mret (JsMap.of_list
            (filter_notEmpty
               ((λ token,
                   match JsMap.get listedAddressesAndIds (TokenDetails.address token) with
                   | Some tokenId => Some (TokenDetails.address token, tokenId)
                   | None => None
                   end) <$> tokensConfig))).

(** *** Full metadata reconciliation *)

(** [new Map(tokens.map((t) => [t.address, t]))]: a later record with the
    same address replaces an earlier one. *)
Definition tokensByAddress (tokens : list TokenDetails) : gmap string TokenDetails :=
  foldl (λ m t, <[TokenDetails.address t := t]> m) ∅ tokens.

(** The promise pushed for an address that has only its id. *)
Definition fullTokenPromise (networkId : Z) (tokenAddress : string) (id : Z)
    : M (option TokenDetails) :=
  partialToken ← getErc20DetailsOrAddress networkId tokenAddress;
  mret (match partialToken with
        | inr _ => None
        | inl p => Some (TokenDetails.of_erc20 p id)
        end).

(** One round of [filteredAddressesAndIds.forEach]: the pair holds
    [localTokens] and [TokenDetailsPromises]. *)
Definition forEach_step (networkId : Z) (allTokensFromApi : gmap string TokenDetails)
    (acc : list TokenDetails * list (M (option TokenDetails)))
    (entry : string * Z) : list TokenDetails * list (M (option TokenDetails)) :=
  match allTokensFromApi !! entry.1 with
  | Some token => (acc.1 ++ [token], acc.2)
  | None => (acc.1, acc.2 ++ [fullTokenPromise networkId entry.1 entry.2])
  end.

Definition updateTokenDetails (networkId numTokens : Z) : M unit :=
  filteredAddressesAndIds ← _getFilteredIdsMap networkId numTokens;
  cached ← getCached networkId;
  let allTokensFromApi := tokensByAddress cached in
  let gathered :=
    foldl (forEach_step networkId allTokensFromApi) ([], []) filteredAddressesAndIds in
  let localTokens := gathered.1 in
  let TokenDetailsPromises := gathered.2 in
  fetched ← promise_all TokenDetailsPromises;
  let fetchedAndFilledTokenDetails := filter_notEmpty fetched in
  let tokenList := localTokens ++ fetchedAndFilledTokenDetails in
  tokenListApi_persistTokens networkId tokenList.

(** *** Orchestrator *)

(** [updateTokens] up to its first [await]: [areTokensUpdated.add]. *)
Definition updateTokens_start (networkId : Z) (s : State) : State :=
  set_areTokensUpdated (λ u, u ∪ {[networkId]}) s.

(** The [try] block of [updateTokens]. *)
Definition updateTokens_try (networkId : Z) : M unit :=
  numTokens ← retry (exchangeApi_getNumTokens networkId);
  tokens ← getCached networkId;
  if bool_decide (Z.of_nat (length tokens) < numTokens)%Z then
    updateTokenDetails networkId numTokens
  else
    updateTokenIds networkId tokens 3 1000 true.

(** The [catch] block of [updateTokens]: [areTokensUpdated.delete]. *)
Definition updateTokens_catch (networkId : Z) (e : Error) : M unit := λ s,
  (Ok tt, set_areTokensUpdated (λ u, u ∖ {[networkId]}) s).

(** [updateTokens] from its first [await] on: the [try] block and its
    [catch], which clears the flag. *)
Definition updateTokens_resume (networkId : Z) : M unit :=
  try_catch (updateTokens_try networkId) (updateTokens_catch networkId).

(** [updateTokens] run to completion. *)
Definition updateTokens (networkId : Z) : M unit := λ s,
  updateTokens_resume networkId (updateTokens_start networkId s).

(** *** Read-through accessor *)

(** The function returned by [getTokensFactory].  The call
    [updateTokens(networkId)] is not awaited: it runs up to its first
    [await] and the rest is left in [background]. *)
Definition getTokens (networkId : Z) (s : State) : list TokenDetails * State :=
  let s' :=
    if decide (networkId ∈ areTokensUpdated s) then s
    else set_background (λ l, l ++ [networkId]) (updateTokens_start networkId s) in
  (tokenListApi_getTokens networkId s', s').

(** *** Event loop *)

(** Resumes the oldest suspended [updateTokens]. *)
Definition runBackground (s : State) : Result unit * State :=
  match background s with
  | [] => (Ok tt, s)
  | networkId :: rest =>
      updateTokens_resume networkId (set_background (λ _, rest) s)
  end.

(** Fires the oldest timer.  The callback passes four arguments, so
    [exponentialBackOff] takes its default. *)
Definition fireTimer (s : State) : Result unit * State :=
  match timers s with
  | [] => (Ok tt, s)
  | t :: rest =>
      updateTokenIds (timer_networkId t) (timer_tokens t) (timer_maxRetries t)
        (timer_retryDelay t) true (set_timers (λ _, rest) s)
  end.

End Factory.

(** The state of a fresh factory over a given cache. *)
Definition initial (cache : gmap Z (list TokenDetails)) : State :=
  {| trace := []; store := cache; areTokensUpdated := ∅; background := [];
     timers := []; persisted := [] |}.

(** The accessor called [k] times in a row, nothing else running in
    between; the lists returned, first call first. *)
Fixpoint getTokens_repeat (k : nat) (networkId : Z) (s : State) : list (list TokenDetails) * State :=
  match k with
  | O => ([], s)
  | S k' =>
      let r := getTokens networkId s in
      let rest := getTokens_repeat k' networkId r.2 in
      (r.1 :: rest.1, rest.2)
  end.

(** ** Readings of the passes

    Definitions that say, independently of how the source computes them,
    what a pass is expected to produce; the properties below relate the
    factory's functions to them. *)

Section Readings.

Context (env : Collaborators).

(** A computation is quiet when all it does to the state is to make
    external calls: the cache, the flags and the queues are as before. *)
Definition quiet {A} (m : M A) : Prop :=
  ∀ s, ∃ calls, (m s).2 = set_trace (λ t, t ++ calls) s.

(** What one query answers, read off the collaborator: [n] is the number of
    external calls made before [hasToken] is asked. *)
Definition outcome (n : nat) (networkId : Z) (t : TokenDetails) : UpdateTokenIdResult :=
  match exchange_hasToken env n networkId (TokenDetails.address t) with
  | Ok false => {| token := t; remove := true; failed := false |}
  | Ok true =>
      match exchange_getTokenIdByAddress env (S n) networkId (TokenDetails.address t) with
      | Ok i => {| token := TokenDetails.set_id t i; remove := false; failed := false |}
      | Err _ => {| token := t; remove := false; failed := true |}
      end
  | Err _ => {| token := t; remove := false; failed := true |}
  end.

(** The addresses marked for removal. *)
Definition removedAddresses (results : list UpdateTokenIdResult) : list string :=
  (λ r, TokenDetails.address (token r)) <$> filter (λ r, remove r = true) results.

(** The record an address was updated to, if any (the latest one). *)
Definition updatedRecord (results : list UpdateTokenIdResult) (a : string)
    : option TokenDetails :=
  last (token <$> filter (λ r, remove r = false ∧ failed r = false
                               ∧ TokenDetails.address (token r) = a) results).

(** The tokens whose query failed. *)
Definition failedTokens (results : list UpdateTokenIdResult) : list TokenDetails :=
  token <$> filter (λ r, remove r = false ∧ failed r = true) results.

(** The list the refresh is to persist: removed addresses dropped, updated
    records in place of their old ones. *)
Definition refreshed (results : list UpdateTokenIdResult)
    (current : list TokenDetails) : list TokenDetails :=
  (λ t, default t (updatedRecord results (TokenDetails.address t)))
    <$> filter (λ t, TokenDetails.address t ∉ removedAddresses results) current.

(** The query for address [a], asked after [n] external calls, fails:
    [hasToken] throws, or it answers [true] and [getTokenIdByAddress]
    throws. *)
Definition fails_at (n : nat) (networkId : Z) (a : string) : Prop :=
  is_err (exchange_hasToken env n networkId a)
  ∨ (exchange_hasToken env n networkId a = Ok true
     ∧ is_err (exchange_getTokenIdByAddress env (S n) networkId a)).

(** The query for address [a], asked after [n] external calls, does not
    fail. *)
Definition settles_at (n : nat) (networkId : Z) (a : string) : Prop :=
  exchange_hasToken env n networkId a = Ok false
  ∨ (exchange_hasToken env n networkId a = Ok true
     ∧ ∃ i, exchange_getTokenIdByAddress env (S n) networkId a = Ok i).

(** The record cached for an address (the latest one, should the cached
    list hold the address more than once). *)
Definition cachedRecord (cached : list TokenDetails) (a : string)
    : option TokenDetails :=
  last (filter (λ t, TokenDetails.address t = a) cached).

(** The eligible entries already known locally, as cached. *)
Definition knownTokens (eligible : JsMap.t Z) (cached : list TokenDetails)
    : list TokenDetails :=
  omap (λ e, cachedRecord cached e.1) eligible.

(** The eligible entries the cache has no record of. *)
Definition newlyEligible (eligible : JsMap.t Z) (cached : list TokenDetails)
    : list (string * Z) :=
  filter (λ e, e.1 ∉ TokenDetails.address <$> cached) eligible.

(** The record built for a newly eligible entry from the metadata read. *)
Definition resolvedToken (e : string * Z) (info : Erc20Info) : TokenDetails :=
  TokenDetails.mk e.1 e.2 (info_symbol info) (info_name info)
    (info_decimals info) None.

(** The records built from the answers of the probes, one answer per
    newly eligible entry; a null answer builds nothing. *)
Definition resolvedTokens (entries : list (string * Z))
    (answers : list (option Erc20Info)) : list TokenDetails :=
  omap (λ p, resolvedToken p.1 <$> p.2) (zip entries answers).

(** The probe calls of a pass, in order. *)
Definition probeCalls (networkId : Z) (entries : list (string * Z)) : list Call :=
  (λ e, CallGetTokenFromErc20 networkId e.1) <$> entries.

(** The state a completed pass leaves: the probes in the trace, the list
    in the store and in the log of persisted lists. *)
Definition reconciled (networkId : Z) (entries : list (string * Z))
    (tokenList : list TokenDetails) (s1 : State) : State :=
  set_persisted (λ l, l ++ [(networkId, tokenList)])
    (set_store (insert networkId tokenList)
       (set_trace (λ t, t ++ probeCalls networkId entries) s1)).

(** No curated registry: [tcrApi] is absent, or answers the empty set. *)
Definition registry_unconfigured (networkId : Z) : Prop :=
  match tcrApi env with
  | None => True
  | Some getTokens => ∀ n, getTokens n networkId = Ok []
  end.

(** The cache holds [tA] and [tB] (ids 0 and 1), the contract lists three
    tokens, the addresses of [tA], [tB] and then [C], no registry is
    configured, and every call is answered: the probe of [C] would resolve
    its metadata. *)
Record scenario (networkId : Z) (s : State) (tA tB : TokenDetails) (C : string)
    : Prop := {
  sc_cached : tokenListApi_getTokens networkId s = [tA; tB];
  sc_ids : TokenDetails.id tA = 0%Z ∧ TokenDetails.id tB = 1%Z;
  sc_distinct :
    TokenDetails.address tA ≠ TokenDetails.address tB
    ∧ C ≠ TokenDetails.address tA ∧ C ≠ TokenDetails.address tB;
  sc_registry : registry_unconfigured networkId;
  sc_numTokens : ∀ n, exchange_getNumTokens env n networkId = Ok 3%Z;
  sc_slot0 : ∀ n, exchange_getTokenAddressById env n networkId 0
                  = Ok (TokenDetails.address tA);
  sc_slot1 : ∀ n, exchange_getTokenAddressById env n networkId 1
                  = Ok (TokenDetails.address tB);
  sc_slot2 : ∀ n, exchange_getTokenAddressById env n networkId 2 = Ok C;
  sc_probe : ∀ n, ∃ info, erc20_probe env n networkId C = Ok (Some info);
}.

(** The call is a metadata probe. *)
Definition isProbe (c : Call) : Prop :=
  match c with CallGetTokenFromErc20 _ _ => True | _ => False end.

(** What a pass for one network may change of the state: it may make
    calls, give the network a new list, log lists persisted for it and set
    timers for it; the flags, the suspended invocations and the lists of
    the other networks stay as they are. *)
Record pass_frame (networkId : Z) (s s' : State) : Prop := {
  pf_flags : areTokensUpdated s' = areTokensUpdated s;
  pf_background : background s' = background s;
  pf_others : ∀ n, n ≠ networkId →
    tokenListApi_getTokens n s' = tokenListApi_getTokens n s;
  pf_trace : ∃ calls, trace s' = trace s ++ calls;
  pf_persisted : ∃ l, persisted s' = persisted s ++ l
                      ∧ Forall (λ p, p.1 = networkId) l;
  pf_timers : ∃ ts, timers s' = timers s ++ ts
                    ∧ Forall (λ t, timer_networkId t = networkId) ts;
}.

(** [t'] is [t] but for its [id]. *)
Definition same_but_id (t t' : TokenDetails) : Prop :=
  t' = TokenDetails.set_id t (TokenDetails.id t').

(** The allow-list of a pass: the registry's addresses when it answered
    any, the cached addresses otherwise. *)
Definition allowed (tcrAddressesSet : gset string) (cached : list TokenDetails)
    (a : string) : Prop :=
  if bool_decide (0 < size tcrAddressesSet) then a ∈ tcrAddressesSet
  else a ∈ TokenDetails.address <$> cached.

(** The eligible entries: the listed entries whose address is on the
    registry when the registry answered any address, and otherwise the
    cached addresses that are listed, each with its slot. *)
Definition eligibleEntries (tcrAddressesSet : gset string)
    (listedAddressesAndIds : JsMap.t Z) (cached : list TokenDetails) : JsMap.t Z :=
  if bool_decide (0 < size tcrAddressesSet) then
    JsMap.of_list (filter (λ p, p.1 ∈ tcrAddressesSet) listedAddressesAndIds)
  else
    JsMap.of_list
      (filter_notEmpty
         ((λ token,
             match JsMap.get listedAddressesAndIds (TokenDetails.address token) with
             | Some tokenId => Some (TokenDetails.address token, tokenId)
             | None => None
             end) <$> cached)).

End Readings.

(** ** Concrete collaborators and caches *)

Module Fixtures.

Definition tA : TokenDetails :=
  TokenDetails.mk "0xA" 0 (Some "AAA") (Some "Token A") 18 None.
Definition tB : TokenDetails :=
  TokenDetails.mk "0xB" 1 (Some "BBB") (Some "Token B") 18 None.
(** [tB] cached with an id that is no longer its slot. *)
Definition tB_stale : TokenDetails :=
  TokenDetails.mk "0xB" 7 (Some "BBB") (Some "Token B") 18 None.
Definition infoC : Erc20Info :=
  {| info_symbol := Some "CCC"; info_name := Some "Token C"; info_decimals := 6 |}.
Definition tC : TokenDetails :=
  TokenDetails.mk "0xC" 2 (Some "CCC") (Some "Token C") 6 None.

(** The contract lists 0xA, 0xB and 0xC in slots 0, 1 and 2. *)
Definition slotAddress (tokenId : Z) : string :=
  if decide (tokenId = 0%Z) then "0xA"
  else if decide (tokenId = 1%Z) then "0xB" else "0xC".
Definition addressSlot (a : string) : Z :=
  if decide (a = "0xA") then 0%Z else if decide (a = "0xB") then 1%Z else 2%Z.

(** Collaborators that answer every call, but for what is given. *)
Definition collaborators (hasToken : nat → Z → string → Result bool)
    (getNumTokens : nat → Z → Result Z)
    (registry : option (nat → Z → Result (list string)))
    (probe : nat → Z → string → Result (option Erc20Info)) : Collaborators :=
  {| exchange_hasToken := hasToken;
     exchange_getTokenIdByAddress := λ _ _ a, Ok (addressSlot a);
     exchange_getTokenAddressById := λ _ _ i, Ok (slotAddress i);
     exchange_getNumTokens := getNumTokens;
     tcrApi := registry;
     erc20_probe := probe;
     retry_extra := 2 |}.

(** Three tokens listed, no registry, every call answered. *)
Definition env_noRegistry : Collaborators :=
  collaborators (λ _ _ _, Ok true) (λ _ _, Ok 3%Z) None
    (λ _ _ _, Ok (Some infoC)).

(** Three tokens listed, a registry holding 0xA and 0xC. *)
Definition env_registry : Collaborators :=
  collaborators (λ _ _ _, Ok true) (λ _ _, Ok 3%Z)
    (Some (λ _ _, Ok ["0xA"; "0xC"])) (λ _ _ _, Ok (Some infoC)).

(** As [env_registry], with 0xC not a valid ERC20 token. *)
Definition env_notErc20 : Collaborators :=
  collaborators (λ _ _ _, Ok true) (λ _ _, Ok 3%Z)
    (Some (λ _ _, Ok ["0xA"; "0xC"])) (λ _ _ _, Ok None).

(** Two tokens listed, 0xB no longer recognised. *)
Definition env_delisted : Collaborators :=
  collaborators (λ _ _ a, Ok (bool_decide (a ≠ "0xB"))) (λ _ _, Ok 2%Z) None
    (λ _ _ _, Ok (Some infoC)).

(** Two tokens listed, every query about 0xB throws. *)
Definition env_flaky : Collaborators :=
  collaborators
    (λ _ _ a, if decide (a = "0xB") then Err (ExternalError "timeout") else Ok true)
    (λ _ _, Ok 2%Z) None (λ _ _ _, Ok (Some infoC)).

(** The count cannot be fetched. *)
Definition env_down : Collaborators :=
  collaborators (λ _ _ _, Ok true) (λ _ _, Err (ExternalError "unreachable"))
    None (λ _ _ _, Ok (Some infoC)).

(** No query about a token is answered. *)
Definition env_idsDown : Collaborators :=
  collaborators (λ _ _ _, Err (ExternalError "timeout")) (λ _ _, Ok 2%Z) None
    (λ _ _ _, Ok (Some infoC)).

(** The probe of 0xC throws. *)
Definition env_probeThrows : Collaborators :=
  collaborators (λ _ _ _, Ok true) (λ _ _, Ok 3%Z)
    (Some (λ _ _, Ok ["0xA"; "0xC"])) (λ _ _ _, Err (ExternalError "timeout")).

(** Slot 2 cannot be read. *)
Definition env_slotDown : Collaborators :=
  {| exchange_hasToken := λ _ _ _, Ok true;
     exchange_getTokenIdByAddress := λ _ _ a, Ok (addressSlot a);
     exchange_getTokenAddressById := λ _ _ i,
       if decide (i = 2%Z) then Err (ExternalError "timeout")
       else Ok (slotAddress i);
     exchange_getNumTokens := λ _ _, Ok 3%Z;
     tcrApi := None;
     erc20_probe := λ _ _ _, Ok (Some infoC);
     retry_extra := 2 |}.

(** Slots 0 and 2 hold the same address. *)
Definition env_sameAddress : Collaborators :=
  {| exchange_hasToken := λ _ _ _, Ok true;
     exchange_getTokenIdByAddress := λ _ _ a, Ok (addressSlot a);
     exchange_getTokenAddressById := λ _ _ i,
       Ok (if decide (i = 1%Z) then "0xB" else "0xA");
     exchange_getNumTokens := λ _ _, Ok 3%Z;
     tcrApi := None;
     erc20_probe := λ _ _ _, Ok (Some infoC);
     retry_extra := 2 |}.

Definition s_cached : State := initial {[ 1%Z := [tA; tB] ]}.
(** Two networks cached. *)
Definition s_networks : State := initial {[ 1%Z := [tA; tB]; 2%Z := [tC] ]}.
Definition s_stale : State := initial {[ 1%Z := [tA; tB_stale] ]}.

End Fixtures.

(** * Properties *)

(** ** Reasoning about computations *)

Ltac unfold_M :=
  unfold mbind, M_bind, mret, M_ret, try_catch, throw, when in *.

Lemma bind_ok {A B} (m : M A) (f : A → M B) s a s1 :
  m s = (Ok a, s1) → (m ≫= f) s = f a s1.
Proof. intros H. unfold_M. by rewrite H. Qed.

Lemma bind_err {A B} (m : M A) (f : A → M B) s e s1 :
  m s = (Err e, s1) → (m ≫= f) s = (Err e, s1).
Proof. intros H. unfold_M. by rewrite H. Qed.

Lemma bind_inv {A B} (m : M A) (f : A → M B) s b s2 :
  (m ≫= f) s = (Ok b, s2) → ∃ a s1, m s = (Ok a, s1) ∧ f a s1 = (Ok b, s2).
Proof.
  unfold_M. destruct (m s) as [[a|e] s1]; [eauto | discriminate].
Qed.

Lemma set_trace_nil s : set_trace (λ t, t ++ []) s = s.
Proof. destruct s. unfold set_trace. simpl. by rewrite app_nil_r. Qed.

Lemma set_trace_app s c1 c2 :
  set_trace (λ t, t ++ c2) (set_trace (λ t, t ++ c1) s)
  = set_trace (λ t, t ++ (c1 ++ c2)) s.
Proof. unfold set_trace. simpl. by rewrite app_assoc. Qed.

Lemma quiet_ret {A} (a : A) : quiet (mret a).
Proof. intros s. exists []. by rewrite set_trace_nil. Qed.

Lemma quiet_throw {A} e : quiet (@throw A e).
Proof. intros s. exists []. by rewrite set_trace_nil. Qed.

Lemma quiet_bind {A B} (m : M A) (f : A → M B) :
  quiet m → (∀ a, quiet (f a)) → quiet (m ≫= f).
Proof.
  intros Hm Hf s. destruct (Hm s) as [c1 H1]. unfold_M.
  destruct (m s) as [[a|e] s1]; simpl in H1; subst s1; [|by eauto].
  destruct (Hf a (set_trace (λ t, t ++ c1) s)) as [c2 H2].
  exists (c1 ++ c2). by rewrite H2, set_trace_app.
Qed.

Lemma quiet_try_catch {A} (m : M A) (h : Error → M A) :
  quiet m → (∀ e, quiet (h e)) → quiet (try_catch m h).
Proof.
  intros Hm Hh s. destruct (Hm s) as [c1 H1]. unfold_M.
  destruct (m s) as [[a|e] s1]; simpl in H1; subst s1; [by eauto|].
  destruct (Hh e (set_trace (λ t, t ++ c1) s)) as [c2 H2].
  exists (c1 ++ c2). by rewrite H2, set_trace_app.
Qed.

Lemma quiet_external {A} c (answer : nat → Result A) : quiet (external c answer).
Proof. intros s. by exists [c]. Qed.

Lemma quiet_promise_all {A} (ps : list (M A)) :
  Forall quiet ps → quiet (promise_all ps).
Proof.
  induction 1 as [|p ps Hp _ IH]; simpl.
  - apply quiet_ret.
  - apply quiet_bind; [done|]. intros a. apply quiet_bind; [done|].
    intros l. apply quiet_ret.
Qed.

Lemma quiet_fields {A} (m : M A) s r s1 :
  quiet m → m s = (r, s1) →
  store s1 = store s ∧ areTokensUpdated s1 = areTokensUpdated s
  ∧ background s1 = background s ∧ timers s1 = timers s
  ∧ persisted s1 = persisted s ∧ ∃ calls, trace s1 = trace s ++ calls.
Proof.
  intros Hq Hm. destruct (Hq s) as [calls Hc]. rewrite Hm in Hc.
  simpl in Hc. subst s1. simpl. eauto 10.
Qed.

Create HintDb quiet.
#[export] Hint Resolve quiet_ret quiet_throw quiet_external : quiet.

(** ** Facts about the factory's functions *)

Section FactoryFacts.

Context (env : Collaborators).

Lemma quiet_getCached networkId : quiet (getCached networkId).
Proof. intros s. exists []. by rewrite set_trace_nil. Qed.

Lemma quiet_retry_from {A} (op : M A) k : quiet op → quiet (retry_from k op).
Proof.
  intros Hop. induction k as [|k IH]; simpl; [done|].
  apply quiet_try_catch; auto.
Qed.

Lemma quiet_retry {A} (op : M A) : quiet op → quiet (retry env op).
Proof. apply quiet_retry_from. Qed.

Lemma quiet_updateTokenIdOrIndicateFailure networkId token :
  quiet (updateTokenIdOrIndicateFailure env networkId token).
Proof.
  unfold updateTokenIdOrIndicateFailure.
  apply quiet_try_catch; [|auto with quiet].
  apply quiet_bind; [apply quiet_external|]. intros [|]; simpl.
  - apply quiet_bind; [apply quiet_external|]. auto with quiet.
  - auto with quiet.
Qed.

Lemma quiet_getTokenFromErc20 networkId a :
  quiet (getTokenFromErc20 env networkId a).
Proof. apply quiet_bind; auto with quiet. Qed.

Lemma quiet_fullTokenPromise networkId a id :
  quiet (fullTokenPromise env networkId a id).
Proof.
  apply quiet_bind; [|auto with quiet].
  apply quiet_bind; [apply quiet_getTokenFromErc20|auto with quiet].
Qed.

Lemma quiet_fetchAddressesAndIds networkId numTokens :
  quiet (fetchAddressesAndIds env networkId numTokens).
Proof.
  apply quiet_bind; [|auto with quiet].
  apply quiet_promise_all, Forall_fmap, Forall_forall. intros i _. simpl.
  apply quiet_bind; [apply quiet_external|]. auto with quiet.
Qed.

Lemma quiet_fetchTcrAddresses networkId :
  quiet (fetchTcrAddresses env networkId).
Proof.
  unfold fetchTcrAddresses. destruct (tcrApi env); [|auto with quiet].
  apply quiet_bind; auto with quiet.
Qed.

Lemma quiet__getFilteredIdsMap networkId numTokens :
  quiet (_getFilteredIdsMap env networkId numTokens).
Proof.
  apply quiet_bind; [apply quiet_retry, quiet_fetchTcrAddresses|].
  intros tcr. apply quiet_bind; [apply quiet_retry, quiet_fetchAddressesAndIds|].
  intros listed. case_bool_decide; [auto with quiet|].
  apply quiet_bind; [apply quiet_getCached|auto with quiet].
Qed.

Lemma quiet_getNumTokens networkId :
  quiet (retry env (exchangeApi_getNumTokens env networkId)).
Proof. apply quiet_retry, quiet_external. Qed.

(** The cached list only depends on the store. *)
Lemma getTokens_store networkId s s' :
  store s' = store s →
  tokenListApi_getTokens networkId s' = tokenListApi_getTokens networkId s.
Proof. unfold tokenListApi_getTokens. by intros ->. Qed.

End FactoryFacts.

(** ** The orchestrator and the accessor *)

Section Orchestrator.

Context (env : Collaborators).

Lemma updateTokens_start_getTokens networkId s :
  tokenListApi_getTokens networkId (updateTokens_start networkId s)
  = tokenListApi_getTokens networkId s.
Proof. done. Qed.

(** The [try] block, once the count has been fetched: the comparison
    with the length of the cached list picks the pass. *)
Lemma updateTokens_try_fetched networkId s0 numTokens s1 :
  retry env (exchangeApi_getNumTokens env networkId) s0 = (Ok numTokens, s1) →
  let tokens := tokenListApi_getTokens networkId s0 in
  updateTokens_try env networkId s0
  = (if bool_decide (Z.of_nat (length tokens) < numTokens)%Z
     then updateTokenDetails env networkId numTokens
     else updateTokenIds env networkId tokens 3 1000 true) s1.
Proof.
  intros Hnum tokens.
  destruct (quiet_fields _ _ _ _ (quiet_getNumTokens env networkId) Hnum)
    as (Hstore & _).
  unfold updateTokens_try. rewrite (bind_ok _ _ _ _ _ Hnum).
  unfold getCached at 1. unfold_M.
  by rewrite (getTokens_store _ _ _ Hstore).
Qed.

(** C2: once the count [numTokens] has been fetched, [updateTokens] runs
    [updateTokenDetails] when [numTokens] is strictly greater than the length
    of the cached list, and [updateTokenIds] over the cached tokens (with
    its default parameters) in every other case; either one runs inside the
    [try] whose [catch] is [updateTokens_catch]. *)
Theorem C2_updateTokens_decision networkId s numTokens s1 :
  retry env (exchangeApi_getNumTokens env networkId)
    (updateTokens_start networkId s) = (Ok numTokens, s1) →
  let tokens := tokenListApi_getTokens networkId s in
  tokenListApi_getTokens networkId s1 = tokens
  ∧ ((Z.of_nat (length tokens) < numTokens)%Z →
     updateTokens env networkId s
     = try_catch (updateTokenDetails env networkId numTokens)
         (updateTokens_catch networkId) s1)
  ∧ ((numTokens ≤ Z.of_nat (length tokens))%Z →
     updateTokens env networkId s
     = try_catch (updateTokenIds env networkId tokens 3 1000 true)
         (updateTokens_catch networkId) s1).
Proof.
  intros Hnum tokens.
  destruct (quiet_fields _ _ _ _ (quiet_getNumTokens env networkId) Hnum)
    as (Hstore & _).
  split; [by rewrite (getTokens_store _ _ _ Hstore)|].
  assert (Htry := updateTokens_try_fetched _ _ _ _ Hnum).
  rewrite updateTokens_start_getTokens in Htry. fold tokens in Htry.
  unfold updateTokens, updateTokens_resume.
  split; intros Hcmp; unfold try_catch at 1; rewrite Htry.
  - by rewrite bool_decide_eq_true_2.
  - rewrite bool_decide_eq_false_2 by lia. done.
Qed.

(** C4: when a failure escapes the [try] block of [updateTokens], the call
    itself does not throw, the network is no longer in [areTokensUpdated],
    and the next call of the accessor for that network starts [updateTokens]
    again: the flag is set anew and one more invocation is left in
    [background]. *)
Theorem C4_failure_clears_flag networkId s e s1 :
  updateTokens_try env networkId (updateTokens_start networkId s) = (Err e, s1) →
  let s' := (updateTokens env networkId s).2 in
  (updateTokens env networkId s).1 = Ok tt
  ∧ (networkId ∉ areTokensUpdated s')
  ∧ background (getTokens networkId s').2 = background s' ++ [networkId]
  ∧ networkId ∈ areTokensUpdated (getTokens networkId s').2.
Proof.
  intros Htry. unfold updateTokens, updateTokens_resume, try_catch.
  rewrite Htry. simpl.
  assert (Hout : networkId ∉ (areTokensUpdated s1 ∖ {[networkId]})).
  { rewrite elem_of_difference, elem_of_singleton. tauto. }
  split; [done|]. split; [done|].
  unfold getTokens. simpl. rewrite decide_False by done. simpl.
  split; [done|set_solver].
Qed.

Lemma getTokens_flagged networkId s :
  networkId ∈ areTokensUpdated s →
  getTokens networkId s = (tokenListApi_getTokens networkId s, s).
Proof. intros H. unfold getTokens. by rewrite decide_True. Qed.

Lemma getTokens_sets_flag networkId s :
  networkId ∈ areTokensUpdated (getTokens networkId s).2.
Proof.
  unfold getTokens. case_decide; simpl; [done|set_solver].
Qed.

Lemma getTokens_repeat_flagged k networkId s :
  networkId ∈ areTokensUpdated s →
  getTokens_repeat k networkId s
  = (replicate k (tokenListApi_getTokens networkId s), s).
Proof.
  intros H. induction k as [|k IH]; [done|].
  cbn [getTokens_repeat]. cbv zeta. rewrite getTokens_flagged by done.
  cbn [fst snd]. by rewrite IH.
Qed.

(** The accessor followed by the event loop is [updateTokens] run to
    completion: the first call for a network starts it, [runBackground]
    finishes it. *)
Lemma accessor_then_background networkId s :
  networkId ∉ areTokensUpdated s → background s = [] →
  runBackground env (getTokens networkId s).2 = updateTokens env networkId s.
Proof.
  intros Hflag Hbg. unfold getTokens. rewrite decide_False by done.
  unfold runBackground. simpl. rewrite Hbg. simpl.
  unfold updateTokens. f_equal.
  destruct s. simpl in *. subst. reflexivity.
Qed.

(** C9: [k+1] consecutive calls of the accessor for one network all return
    the list cached before the first call; the first call sets the flag
    before it returns and leaves exactly one [updateTokens] invocation in
    [background] when the network was not flagged (none when it was), without
    any external call having been answered yet; the later calls leave the
    state as the first call left it. *)
Theorem C9_accessor_idempotent networkId s k :
  let first := getTokens networkId s in
  let all := getTokens_repeat (S k) networkId s in
  all.1 = replicate (S k) (tokenListApi_getTokens networkId s)
  ∧ all.2 = first.2
  ∧ networkId ∈ areTokensUpdated first.2
  ∧ background first.2
    = background s ++ (if decide (networkId ∈ areTokensUpdated s) then []
                       else [networkId])
  ∧ trace first.2 = trace s
  ∧ store first.2 = store s.
Proof.
  intros first all.
  assert (Hall : all = (first.1 :: replicate k (tokenListApi_getTokens networkId first.2),
                        first.2)).
  { subst all first. cbn [getTokens_repeat]. cbv zeta.
    by rewrite (getTokens_repeat_flagged k _ _ (getTokens_sets_flag networkId s)). }
  rewrite Hall. clear Hall all. cbn [fst snd].
  assert (Hflag := getTokens_sets_flag networkId s). fold first in Hflag.
  subst first. unfold getTokens in *. case_decide; simpl in *.
  - rewrite app_nil_r. done.
  - done.
Qed.

End Orchestrator.

(** ** The id-only refresh *)

Section IdRefresh.

Context (env : Collaborators).

Lemma updateTokenIdOrIndicateFailure_outcome networkId t s :
  ∃ s1, updateTokenIdOrIndicateFailure env networkId t s
        = (Ok (outcome env (length (trace s)) networkId t), s1)
        ∧ length (trace s) < length (trace s1).
Proof.
  unfold updateTokenIdOrIndicateFailure, outcome, exchangeApi_hasToken,
    exchangeApi_getTokenIdByAddress, external.
  unfold_M. simpl.
  destruct (exchange_hasToken env _ _ _) as [[|]|e]; simpl.
  - rewrite length_app. simpl. rewrite Nat.add_1_r.
    destruct (exchange_getTokenIdByAddress env _ _ _); simpl;
      eexists; (split; [reflexivity|]); simpl; rewrite !length_app; simpl; lia.
  - eexists; (split; [reflexivity|]); simpl; rewrite !length_app; simpl; lia.
  - eexists; (split; [reflexivity|]); simpl; rewrite !length_app; simpl; lia.
Qed.

(** The batch never throws, and each result is the outcome of the query
    for the token at the same position. *)
Lemma refresh_batch networkId tokens s :
  ∃ results s1,
    promise_all (updateTokenIdOrIndicateFailure env networkId <$> tokens) s
    = (Ok results, s1)
    ∧ Forall2 (λ t r, ∃ n, length (trace s) ≤ n ∧ r = outcome env n networkId t)
        tokens results.
Proof.
  revert s. induction tokens as [|t tokens IH]; intros s; simpl.
  - exists [], s. split; [done|constructor].
  - destruct (updateTokenIdOrIndicateFailure_outcome networkId t s)
      as (s1 & H1 & Hlen).
    destruct (IH s1) as (results & s2 & H2 & HF).
    exists (outcome env (length (trace s)) networkId t :: results), s2.
    split.
    + rewrite (bind_ok _ _ _ _ _ H1). rewrite (bind_ok _ _ _ _ _ H2). done.
    + constructor; [eauto|].
      eapply Forall2_impl; [exact HF|]. simpl.
      intros t' r' (n & Hn & ->). exists n. split; [lia|done].
Qed.

Lemma quiet_refresh_batch networkId tokens :
  quiet (promise_all (updateTokenIdOrIndicateFailure env networkId <$> tokens)).
Proof.
  apply quiet_promise_all, Forall_fmap, Forall_forall. intros t _.
  apply quiet_updateTokenIdOrIndicateFailure.
Qed.

(** *** The classification, as three independent readings of the results *)

Lemma classify_snoc results r :
  classify (results ++ [r]) = classify_step (classify results) r.
Proof. unfold classify. by rewrite foldl_app. Qed.

Lemma classify_toRemove results a :
  a ∈ toRemove (classify results) ↔ a ∈ removedAddresses results.
Proof.
  induction results as [|r results IH] using rev_ind.
  - unfold removedAddresses. simpl. set_solver.
  - rewrite classify_snoc. unfold removedAddresses in *.
    rewrite filter_app, fmap_app, elem_of_app, <- IH.
    unfold classify_step. rewrite filter_cons, filter_nil.
    case_decide as Hd; destruct (remove r) eqn:Hr; try done.
    + simpl. set_solver.
    + destruct (failed r); simpl; set_solver.
Qed.

Lemma classify_updated results a :
  updated (classify results) !! a = updatedRecord results a.
Proof.
  induction results as [|r results IH] using rev_ind; [done|].
  rewrite classify_snoc. unfold updatedRecord in *.
  rewrite filter_app, fmap_app, filter_cons, filter_nil.
  unfold classify_step.
  case_decide as Hd.
  - destruct Hd as (-> & -> & <-). simpl.
    by rewrite last_snoc, lookup_insert_eq.
  - simpl. rewrite app_nil_r.
    destruct (remove r) eqn:Hr; [done|].
    destruct (failed r) eqn:Hf; [done|]. simpl.
    rewrite lookup_insert_ne; [done|]. intros Ha. by apply Hd.
Qed.

Lemma classify_failedToUpdate results :
  failedToUpdate (classify results) = failedTokens results.
Proof.
  induction results as [|r results IH] using rev_ind; [done|].
  rewrite classify_snoc. unfold failedTokens in *.
  rewrite filter_app, fmap_app, filter_cons, filter_nil, <- IH.
  unfold classify_step.
  case_decide as Hd.
  - destruct Hd as (-> & ->). done.
  - simpl. rewrite app_nil_r.
    destruct (remove r) eqn:Hr; [done|].
    destruct (failed r) eqn:Hf; [|done]. by destruct Hd.
Qed.

Lemma rebuild_from c acc current :
  foldl (λ acc token,
           if decide (TokenDetails.address token ∈ toRemove c) then acc
           else acc ++ [default token (updated c !! TokenDetails.address token)])
        acc current
  = acc ++ ((λ t, default t (updated c !! TokenDetails.address t))
              <$> filter (λ t, TokenDetails.address t ∉ toRemove c) current).
Proof.
  revert acc. induction current as [|t current IH]; intros acc; simpl.
  - by rewrite app_nil_r.
  - rewrite IH, filter_cons. case_decide as Hin.
    + rewrite decide_False by (intros ?; done). done.
    + rewrite decide_True by done. simpl. by rewrite <- app_assoc.
Qed.

(** The [reduce] of the source is the filter-then-substitute reading. *)
Lemma rebuild_refreshed results current :
  rebuild (classify results) current = refreshed results current.
Proof.
  unfold rebuild, refreshed. rewrite rebuild_from. simpl.
  rewrite (list_filter_iff _ (λ t, TokenDetails.address t ∉ removedAddresses results)).
  2:{ intros t. by rewrite classify_toRemove. }
  apply list_fmap_ext. intros i t _. by rewrite classify_updated.
Qed.

Lemma updatedRecord_address results a u :
  updatedRecord results a = Some u → TokenDetails.address u = a.
Proof.
  unfold updatedRecord. intros H.
  apply last_Some_elem_of, list_elem_of_fmap in H.
  destruct H as (r & -> & Hr). apply list_elem_of_filter in Hr. tauto.
Qed.

Lemma refreshed_addresses results current :
  TokenDetails.address <$> refreshed results current
  = filter (λ a, a ∉ removedAddresses results) (TokenDetails.address <$> current).
Proof.
  unfold refreshed. induction current as [|t current IH]; [done|].
  rewrite fmap_cons, !filter_cons. case_decide; [|done].
  rewrite !fmap_cons, IH. f_equal.
  destruct (updatedRecord results _) as [u|] eqn:Hu; [|done].
  simpl. by apply updatedRecord_address in Hu.
Qed.

Lemma classify_changed results r :
  r ∈ results → remove r = true ∨ failed r = false →
  (bool_decide (0 < size (toRemove (classify results)))
   || bool_decide (0 < size (updated (classify results)))) = true.
Proof.
  intros Hin Hr. apply orb_true_iff.
  destruct (remove r) eqn:Hrem.
  - left. apply bool_decide_eq_true_2.
    assert (Ha : TokenDetails.address (token r) ∈ toRemove (classify results)).
    { apply classify_toRemove. unfold removedAddresses.
      apply list_elem_of_fmap. exists r. split; [done|].
      by apply list_elem_of_filter. }
    assert (size (toRemove (classify results)) ≠ 0); [|lia].
    apply size_non_empty_iff. set_solver.
  - right. apply bool_decide_eq_true_2.
    destruct Hr as [|Hf]; [done|].
    assert (Hu : is_Some (updated (classify results)
                            !! TokenDetails.address (token r))).
    { rewrite classify_updated. unfold updatedRecord.
      apply last_is_Some. intros Hnil. apply fmap_nil_inv in Hnil.
      assert (Hr : r ∈ filter (λ r0, remove r0 = false ∧ failed r0 = false
          ∧ TokenDetails.address (token r0) = TokenDetails.address (token r))
          results) by (by apply list_elem_of_filter).
      rewrite Hnil in Hr. by apply not_elem_of_nil in Hr. }
    assert (size (updated (classify results)) ≠ 0); [|lia].
    apply map_size_non_empty_iff. intros Hempty. rewrite Hempty in Hu.
    rewrite lookup_empty in Hu. by destruct Hu.
Qed.

(** C3: in a pass of [updateTokenIds] where some token was classified as
    removed or updated, the list persisted (and cached afterwards) is the
    list cached before with every address marked for removal dropped and
    every updated record in place of the record of its address; no address
    marked for removal is left in it, and in particular no queried address
    for which [hasToken] answers [false]. *)
Theorem C3_id_refresh_rebuild networkId tokens maxRetries retryDelay
    exponentialBackOff s results s1 :
  (0 < maxRetries)%Z →
  promise_all (updateTokenIdOrIndicateFailure env networkId <$> tokens) s
  = (Ok results, s1) →
  (∃ r, r ∈ results ∧ (remove r = true ∨ failed r = false)) →
  let tokenList := refreshed results (tokenListApi_getTokens networkId s) in
  ∃ s',
    updateTokenIds env networkId tokens maxRetries retryDelay exponentialBackOff s
    = (Ok tt, s')
    ∧ tokenListApi_getTokens networkId s' = tokenList
    ∧ persisted s' = persisted s ++ [(networkId, tokenList)]
    ∧ (∀ r, r ∈ results → remove r = true →
         TokenDetails.address (token r) ∉ TokenDetails.address <$> tokenList)
    ∧ (∀ t, t ∈ tokens →
         (∀ n, exchange_hasToken env n networkId (TokenDetails.address t) = Ok false) →
         TokenDetails.address t ∉ TokenDetails.address <$> tokenList).
Proof.
  intros Hmax Hbatch (r0 & Hr0 & Hchanged) tokenList.
  destruct (quiet_fields _ _ _ _ (quiet_refresh_batch networkId tokens) Hbatch)
    as (Hstore & _ & _ & _ & Hpers & _).
  assert (Hremoved : ∀ r, r ∈ results → remove r = true →
            TokenDetails.address (token r) ∉ TokenDetails.address <$> tokenList).
  { intros r Hr Hrem. subst tokenList. rewrite refreshed_addresses.
    intros Hin. apply list_elem_of_filter in Hin. destruct Hin as [Hnot _].
    apply Hnot. unfold removedAddresses. apply list_elem_of_fmap.
    exists r. split; [done|]. by apply list_elem_of_filter. }
  unfold updateTokenIds. rewrite bool_decide_eq_false_2 by lia.
  rewrite (bind_ok _ _ _ _ _ Hbatch). cbv zeta.
  rewrite (classify_changed _ _ Hr0 Hchanged).
  unfold getCached, tokenListApi_persistTokens, setTimeout.
  unfold_M. cbv beta iota.
  rewrite rebuild_refreshed, classify_failedToUpdate.
  rewrite (getTokens_store _ _ _ Hstore). fold tokenList.
  assert (Hlook : ∀ s2, store s2 = <[networkId := tokenList]> (store s1) →
            tokenListApi_getTokens networkId s2 = tokenList).
  { intros s2 Hs2. unfold tokenListApi_getTokens.
    by rewrite Hs2, lookup_insert_eq. }
  assert (Hunknown : ∀ t, t ∈ tokens →
            (∀ n, exchange_hasToken env n networkId (TokenDetails.address t)
                  = Ok false) →
            TokenDetails.address t ∉ TokenDetails.address <$> tokenList).
  { intros t Ht Hno.
    destruct (refresh_batch networkId tokens s) as (results' & s1' & Hb' & HF).
    rewrite Hbatch in Hb'. injection Hb' as <- <-.
    apply list_elem_of_lookup in Ht. destruct Ht as [i Hi].
    destruct (Forall2_lookup_l _ _ _ _ _ HF Hi) as (r & Hr & n & _ & ->).
    assert (Hout : outcome env n networkId t
                   = {| token := t; remove := true; failed := false |})
      by (unfold outcome; by rewrite Hno).
    apply list_elem_of_lookup_2 in Hr. specialize (Hremoved _ Hr).
    rewrite Hout in Hremoved. by apply Hremoved. }
  destruct (bool_decide (0 < length (failedTokens results)));
    (eexists; split; [reflexivity|]);
    (split; [by apply Hlook|]);
    (split; [simpl; by rewrite Hpers|]); done.
Qed.

(** *** Retries *)

Lemma outcome_fails n networkId t :
  fails_at env n networkId (TokenDetails.address t) →
  outcome env n networkId t = {| token := t; remove := false; failed := true |}.
Proof.
  unfold fails_at, outcome. intros [H|[H1 H2]].
  - by destruct (exchange_hasToken env _ _ _).
  - rewrite H1. by destruct (exchange_getTokenIdByAddress env _ _ _).
Qed.

Lemma outcome_settles n networkId t :
  settles_at env n networkId (TokenDetails.address t) →
  failed (outcome env n networkId t) = false.
Proof.
  unfold settles_at, outcome. intros [H|[H1 [i H2]]].
  - by rewrite H.
  - by rewrite H1, H2.
Qed.

Lemma failedTokens_cons r results :
  failedTokens (r :: results)
  = (if remove r then [] else if failed r then [token r] else [])
    ++ failedTokens results.
Proof.
  unfold failedTokens. rewrite filter_cons.
  case_decide as Hd.
  - destruct Hd as [-> ->]. done.
  - destruct (remove r); [done|]. destruct (failed r); [|done].
    by destruct Hd.
Qed.

(** When exactly the addresses of [F] fail, whenever asked, the tokens
    that failed in a batch are the tokens of the batch with an address in
    [F]. *)
Lemma failedTokens_batch networkId (F : gset string) tokens results m :
  (∀ n t, t ∈ tokens → TokenDetails.address t ∈ F →
     fails_at env n networkId (TokenDetails.address t)) →
  (∀ n t, t ∈ tokens → TokenDetails.address t ∉ F →
     settles_at env n networkId (TokenDetails.address t)) →
  Forall2 (λ t r, ∃ n, m ≤ n ∧ r = outcome env n networkId t) tokens results →
  failedTokens results = filter (λ t, TokenDetails.address t ∈ F) tokens.
Proof.
  intros Hfail Hsettle HF.
  induction HF as [|t r tokens results (n & _ & ->) _ IH]; [done|].
  rewrite failedTokens_cons, filter_cons, IH.
  2:{ intros n' t' Ht'. apply Hfail. by right. }
  2:{ intros n' t' Ht'. apply Hsettle. by right. }
  case_decide as Hin.
  - rewrite (outcome_fails n networkId t) by (apply Hfail; [by left|done]).
    done.
  - assert (Hs := outcome_settles n networkId t
                    (Hsettle n t ltac:(by left) Hin)).
    rewrite Hs. by destruct (remove _).
Qed.

(** One pass with [maxRetries] left: it returns normally and leaves one
    more timer, for the failed tokens, with one retry less and the next
    delay. *)
Lemma updateTokenIds_schedules networkId (F : gset string) tokens maxRetries
    retryDelay exponentialBackOff s :
  (0 < maxRetries)%Z →
  (∀ n t, t ∈ tokens → TokenDetails.address t ∈ F →
     fails_at env n networkId (TokenDetails.address t)) →
  (∀ n t, t ∈ tokens → TokenDetails.address t ∉ F →
     settles_at env n networkId (TokenDetails.address t)) →
  let failing := filter (λ t, TokenDetails.address t ∈ F) tokens in
  failing ≠ [] →
  ∃ s',
    updateTokenIds env networkId tokens maxRetries retryDelay exponentialBackOff s
    = (Ok tt, s')
    ∧ timers s'
      = timers s ++ [{| timer_delay := retryDelay; timer_networkId := networkId;
                        timer_tokens := failing;
                        timer_maxRetries := (maxRetries - 1)%Z;
                        timer_retryDelay :=
                          (retryDelay * (if exponentialBackOff then 2 else 1))%Z |}].
Proof.
  intros Hmax Hfail Hsettle failing Hne.
  destruct (refresh_batch networkId tokens s) as (results & s1 & Hbatch & HF).
  destruct (quiet_fields _ _ _ _ (quiet_refresh_batch networkId tokens) Hbatch)
    as (_ & _ & _ & Htimers & _).
  unfold updateTokenIds. rewrite bool_decide_eq_false_2 by lia.
  rewrite (bind_ok _ _ _ _ _ Hbatch). cbv zeta.
  rewrite classify_failedToUpdate.
  rewrite (failedTokens_batch networkId F tokens results _ Hfail Hsettle HF).
  fold failing.
  rewrite (bool_decide_eq_true_2 (0 < length failing)).
  2:{ destruct failing; [done|simpl; lia]. }
  unfold getCached, tokenListApi_persistTokens, setTimeout.
  unfold_M. cbv beta iota.
  destruct (_ || _); (eexists; split; [reflexivity|]); simpl; by rewrite Htimers.
Qed.

(** C5: a batch started with the default parameters (three retries, initial
    delay [d], exponential back-off) in which exactly the tokens with an
    address in [F] fail, every time they are asked.  Each pass returns
    normally, its retry only queued as a timer; the timers are set for [d],
    [2d] and [4d], each over the tokens that failed; the invocation after
    the third timer throws, naming the addresses of those tokens. *)
Theorem C5_retry_backoff networkId (F : gset string) tokens d s :
  (∀ n t, t ∈ tokens → TokenDetails.address t ∈ F →
     fails_at env n networkId (TokenDetails.address t)) →
  (∀ n t, t ∈ tokens → TokenDetails.address t ∉ F →
     settles_at env n networkId (TokenDetails.address t)) →
  let failing := filter (λ t, TokenDetails.address t ∈ F) tokens in
  failing ≠ [] →
  timers s = [] →
  ∃ s1 s2 s3 s4,
    updateTokenIds env networkId tokens 3 d true s = (Ok tt, s1)
    ∧ timers s1 = [{| timer_delay := d; timer_networkId := networkId;
                      timer_tokens := failing; timer_maxRetries := 2;
                      timer_retryDelay := (d * 2)%Z |}]
    ∧ fireTimer env s1 = (Ok tt, s2)
    ∧ timers s2 = [{| timer_delay := (d * 2)%Z; timer_networkId := networkId;
                      timer_tokens := failing; timer_maxRetries := 1;
                      timer_retryDelay := (d * 2 * 2)%Z |}]
    ∧ fireTimer env s2 = (Ok tt, s3)
    ∧ timers s3 = [{| timer_delay := (d * 2 * 2)%Z; timer_networkId := networkId;
                      timer_tokens := failing; timer_maxRetries := 0;
                      timer_retryDelay := (d * 2 * 2 * 2)%Z |}]
    ∧ fireTimer env s3
      = (Err (MaxRetriesExceeded networkId (TokenDetails.address <$> failing)), s4)
    ∧ timers s4 = [].
Proof.
  intros Hfail Hsettle failing Hne Hnone.
  assert (Hfail' : ∀ n t, t ∈ failing → TokenDetails.address t ∈ F →
            fails_at env n networkId (TokenDetails.address t)).
  { intros n t Ht. apply Hfail. apply list_elem_of_filter in Ht. tauto. }
  assert (Hsettle' : ∀ n t, t ∈ failing → TokenDetails.address t ∉ F →
            settles_at env n networkId (TokenDetails.address t)).
  { intros n t Ht. apply Hsettle. apply list_elem_of_filter in Ht. tauto. }
  assert (Hidem : filter (λ t, TokenDetails.address t ∈ F) failing = failing).
  { subst failing. apply list_filter_filter_l. tauto. }
  assert (Hne' : filter (λ t, TokenDetails.address t ∈ F) failing ≠ [])
    by (by rewrite Hidem).
  destruct (updateTokenIds_schedules networkId F tokens 3 d true s
              ltac:(lia) Hfail Hsettle Hne) as (s1 & H1 & T1).
  rewrite Hnone in T1. simpl in T1. fold failing in T1.
  destruct (updateTokenIds_schedules networkId F failing 2 (d * 2) true
              (set_timers (λ _, []) s1) ltac:(lia) Hfail' Hsettle' Hne')
    as (s2 & H2 & T2).
  rewrite Hidem in T2. simpl in T2.
  destruct (updateTokenIds_schedules networkId F failing 1 (d * 2 * 2) true
              (set_timers (λ _, []) s2) ltac:(lia) Hfail' Hsettle' Hne')
    as (s3 & H3 & T3).
  rewrite Hidem in T3. simpl in T3.
  exists s1, s2, s3, (set_timers (λ _, []) s3).
  split; [done|]. split; [done|].
  split; [unfold fireTimer; by rewrite T1|]. split; [done|].
  split; [unfold fireTimer; by rewrite T2|]. split; [done|].
  split; [unfold fireTimer; by rewrite T3|]. done.
Qed.

End IdRefresh.

(** ** The full metadata reconciliation *)

Section Reconciliation.

Context (env : Collaborators).

Lemma tokensByAddress_snoc cached t :
  tokensByAddress (cached ++ [t])
  = <[TokenDetails.address t := t]> (tokensByAddress cached).
Proof. unfold tokensByAddress. by rewrite foldl_app. Qed.

Lemma tokensByAddress_lookup cached a :
  tokensByAddress cached !! a = cachedRecord cached a.
Proof.
  unfold cachedRecord.
  induction cached as [|t cached IH] using rev_ind; [done|].
  rewrite tokensByAddress_snoc, filter_app, filter_cons, filter_nil.
  case_decide as Ha.
  - subst a. by rewrite lookup_insert_eq, last_snoc.
  - rewrite lookup_insert_ne by done. by rewrite app_nil_r.
Qed.

Lemma cachedRecord_Some cached a t :
  cachedRecord cached a = Some t → t ∈ cached ∧ TokenDetails.address t = a.
Proof.
  unfold cachedRecord. intros H.
  apply last_Some_elem_of, list_elem_of_filter in H. tauto.
Qed.

Lemma cachedRecord_None cached a :
  cachedRecord cached a = None ↔ a ∉ TokenDetails.address <$> cached.
Proof.
  unfold cachedRecord. rewrite last_None. split.
  - intros Hnil Hin. apply list_elem_of_fmap in Hin.
    destruct Hin as (t & -> & Ht).
    assert (Hf : t ∈ filter (λ t0, TokenDetails.address t0 = TokenDetails.address t)
                     cached) by (by apply list_elem_of_filter).
    rewrite Hnil in Hf. by apply not_elem_of_nil in Hf.
  - intros Hnot.
    destruct (filter (λ t, TokenDetails.address t = a) cached) as [|t l] eqn:Hf;
      [done|].
    assert (Ht : t ∈ filter (λ t, TokenDetails.address t = a) cached)
      by (rewrite Hf; left).
    apply list_elem_of_filter in Ht. destruct Ht as [<- Ht].
    exfalso. apply Hnot. apply list_elem_of_fmap. eauto.
Qed.

(** *** The [forEach] over the eligible map *)

Lemma forEach_local networkId m acc (entries : list (string * Z)) :
  (foldl (forEach_step env networkId m) acc entries).1
  = acc.1 ++ omap (λ e, m !! e.1) entries.
Proof.
  revert acc. induction entries as [|e entries IH]; intros acc; simpl.
  - by rewrite app_nil_r.
  - rewrite IH. unfold forEach_step.
    destruct (m !! e.1) as [t|]; simpl; [|done]. by rewrite <- app_assoc.
Qed.

Lemma forEach_promises networkId m acc (entries : list (string * Z)) :
  (foldl (forEach_step env networkId m) acc entries).2
  = acc.2 ++ ((λ e, fullTokenPromise env networkId e.1 e.2)
                <$> filter (λ e, m !! e.1 = None) entries).
Proof.
  revert acc. induction entries as [|e entries IH]; intros acc; simpl.
  - by rewrite app_nil_r.
  - rewrite IH, filter_cons. unfold forEach_step.
    case_decide as Hm.
    + rewrite Hm. simpl. by rewrite <- app_assoc.
    + destruct (m !! e.1) as [t|]; [done|]. by destruct Hm.
Qed.

Lemma gathered_local networkId eligible cached :
  (foldl (forEach_step env networkId (tokensByAddress cached)) ([], []) eligible).1
  = knownTokens eligible cached.
Proof.
  rewrite forEach_local. simpl. unfold knownTokens.
  apply list_omap_ext. apply Forall2_same_length_lookup_2; [done|].
  intros i e e' He He'. rewrite He in He'. injection He' as <-.
  apply tokensByAddress_lookup.
Qed.

Lemma gathered_promises networkId eligible cached :
  (foldl (forEach_step env networkId (tokensByAddress cached)) ([], []) eligible).2
  = (λ e, fullTokenPromise env networkId e.1 e.2) <$> newlyEligible eligible cached.
Proof.
  rewrite forEach_promises. simpl. unfold newlyEligible. f_equal.
  apply list_filter_iff. intros e.
  by rewrite tokensByAddress_lookup, cachedRecord_None.
Qed.

(** *** The probes *)

Lemma fullTokenPromise_run networkId (e : string * Z) s :
  fullTokenPromise env networkId e.1 e.2 s
  = (match erc20_probe env (length (trace s)) networkId e.1 with
     | Ok r => Ok (resolvedToken e <$> r)
     | Err err => Err err
     end,
     set_trace (λ t, t ++ [CallGetTokenFromErc20 networkId e.1]) s).
Proof.
  unfold fullTokenPromise, getErc20DetailsOrAddress, getTokenFromErc20, external.
  unfold_M. simpl.
  destruct (erc20_probe env _ _ _) as [[info|]|err]; done.
Qed.

Lemma filter_notEmpty_cons {A} (a : option A) l :
  filter_notEmpty (a :: l) = option_list a ++ filter_notEmpty l.
Proof. by destruct a. Qed.

Lemma resolvedTokens_cons e entries r answers :
  resolvedTokens (e :: entries) (r :: answers)
  = option_list (resolvedToken e <$> r) ++ resolvedTokens entries answers.
Proof. by destruct r. Qed.

(** The probes, run in order: the [j]-th one is asked after [j] more
    calls, and what is gathered is what the answers resolve to. *)
Lemma probes_run networkId entries s fetched s2 :
  promise_all ((λ e, fullTokenPromise env networkId e.1 e.2) <$> entries) s
  = (Ok fetched, s2) →
  ∃ answers,
    length answers = length entries
    ∧ (∀ j e, entries !! j = Some e →
         ∃ r, answers !! j = Some r
              ∧ erc20_probe env (length (trace s) + j) networkId e.1 = Ok r)
    ∧ filter_notEmpty fetched = resolvedTokens entries answers
    ∧ s2 = set_trace (λ t, t ++ probeCalls networkId entries) s.
Proof.
  revert s fetched s2. induction entries as [|e entries IH]; intros s fetched s2.
  - simpl. intros [= <- <-]. exists []. split; [done|].
    split; [intros j e He; by rewrite lookup_nil in He|].
    split; [done|]. by rewrite set_trace_nil.
  - rewrite fmap_cons. cbn [promise_all]. intros H.
    apply bind_inv in H. destruct H as (a & s1 & Ha & H).
    apply bind_inv in H. destruct H as (l & s1' & Hl & H).
    injection H as <- <-.
    rewrite fullTokenPromise_run in Ha.
    destruct (erc20_probe env (length (trace s)) networkId e.1) as [r|]
      eqn:Hprobe; [|done].
    injection Ha as <- <-.
    destruct (IH _ _ _ Hl) as (answers & Hlen & Hans & Hres & ->).
    exists (r :: answers). split; [simpl; by rewrite Hlen|]. split.
    { intros [|j] e' He'; simpl in He'.
      - injection He' as <-. exists r. by rewrite Nat.add_0_r.
      - destruct (Hans j e' He') as (r' & Hr' & Hp). exists r'.
        split; [done|]. simpl in Hp. rewrite length_app in Hp. simpl in Hp.
        by replace (length (trace s) + S j) with (length (trace s) + 1 + j)
          by lia. }
    split.
    { by rewrite filter_notEmpty_cons, resolvedTokens_cons, Hres. }
    unfold probeCalls. rewrite fmap_cons, set_trace_app. done.
Qed.

(** When no probe throws, the gathering completes. *)
Lemma probes_complete networkId entries s :
  (∀ j e, entries !! j = Some e →
     ∃ r, erc20_probe env (length (trace s) + j) networkId e.1 = Ok r) →
  ∃ fetched s2,
    promise_all ((λ e, fullTokenPromise env networkId e.1 e.2) <$> entries) s
    = (Ok fetched, s2).
Proof.
  revert s. induction entries as [|e entries IH]; intros s Hok.
  - by exists [], s.
  - destruct (Hok 0 e eq_refl) as [r Hr]. rewrite Nat.add_0_r in Hr.
    assert (H1 := fullTokenPromise_run networkId e s). rewrite Hr in H1.
    destruct (IH (set_trace (λ t, t ++ [CallGetTokenFromErc20 networkId e.1]) s))
      as (l & s2 & Hl).
    { intros j e' He'. destruct (Hok (S j) e' He') as [r' Hr']. exists r'.
      simpl. rewrite length_app. simpl.
      by replace (length (trace s) + 1 + j) with (length (trace s) + S j)
        by lia. }
    exists ((resolvedToken e <$> r) :: l), s2.
    rewrite fmap_cons. cbn [promise_all].
    rewrite (bind_ok _ _ _ _ _ H1), (bind_ok _ _ _ _ _ Hl). done.
Qed.

(** *** The pass as a whole *)

Lemma updateTokenDetails_inv networkId numTokens s s' :
  updateTokenDetails env networkId numTokens s = (Ok tt, s') →
  ∃ eligible s1 answers,
    let cached := tokenListApi_getTokens networkId s in
    let entries := newlyEligible eligible cached in
    _getFilteredIdsMap env networkId numTokens s = (Ok eligible, s1)
    ∧ length answers = length entries
    ∧ (∀ j e, entries !! j = Some e →
         ∃ r, answers !! j = Some r
              ∧ erc20_probe env (length (trace s1) + j) networkId e.1 = Ok r)
    ∧ s' = reconciled networkId entries
             (knownTokens eligible cached ++ resolvedTokens entries answers) s1.
Proof.
  unfold updateTokenDetails. intros H.
  apply bind_inv in H. destruct H as (eligible & s1 & HE & H).
  destruct (quiet_fields _ _ _ _ (quiet__getFilteredIdsMap env networkId numTokens) HE)
    as (Hstore & _).
  apply bind_inv in H. destruct H as (cached & s1' & Hc & H).
  unfold getCached in Hc. injection Hc as <- <-.
  rewrite (getTokens_store _ _ _ Hstore) in H. cbv zeta in H.
  rewrite gathered_local, gathered_promises in H.
  apply bind_inv in H. destruct H as (fetched & s2 & Hf & H).
  destruct (probes_run _ _ _ _ _ Hf) as (answers & Hlen & Hans & Hres & ->).
  rewrite Hres in H. unfold tokenListApi_persistTokens in H.
  injection H as <-.
  exists eligible, s1, answers. simpl. done.
Qed.

Lemma updateTokenDetails_run networkId numTokens s eligible s1 :
  _getFilteredIdsMap env networkId numTokens s = (Ok eligible, s1) →
  let cached := tokenListApi_getTokens networkId s in
  let entries := newlyEligible eligible cached in
  (∀ j e, entries !! j = Some e →
     ∃ r, erc20_probe env (length (trace s1) + j) networkId e.1 = Ok r) →
  ∃ answers,
    length answers = length entries
    ∧ (∀ j e, entries !! j = Some e →
         ∃ r, answers !! j = Some r
              ∧ erc20_probe env (length (trace s1) + j) networkId e.1 = Ok r)
    ∧ updateTokenDetails env networkId numTokens s
      = (Ok tt, reconciled networkId entries
                  (knownTokens eligible cached ++ resolvedTokens entries answers) s1).
Proof.
  intros HE cached entries Hok.
  destruct (quiet_fields _ _ _ _ (quiet__getFilteredIdsMap env networkId numTokens) HE)
    as (Hstore & _).
  destruct (probes_complete networkId entries s1 Hok) as (fetched & s2 & Hf).
  destruct (probes_run _ _ _ _ _ Hf) as (answers & Hlen & Hans & Hres & ->).
  exists answers. split; [done|]. split; [done|].
  unfold updateTokenDetails. rewrite (bind_ok _ _ _ _ _ HE).
  unfold getCached at 1. unfold mbind at 1, M_bind at 1.
  rewrite (getTokens_store _ _ _ Hstore). fold cached. cbv zeta.
  rewrite gathered_local, gathered_promises. fold entries.
  rewrite (bind_ok _ _ _ _ _ Hf). rewrite Hres. done.
Qed.

Lemma reconciled_getTokens networkId entries tokenList s1 :
  tokenListApi_getTokens networkId (reconciled networkId entries tokenList s1)
  = tokenList.
Proof.
  unfold tokenListApi_getTokens, reconciled. simpl. by rewrite lookup_insert_eq.
Qed.

Lemma knownTokens_elem eligible cached t :
  t ∈ knownTokens eligible cached ↔
  ∃ e, e ∈ eligible ∧ cachedRecord cached e.1 = Some t.
Proof. unfold knownTokens. apply list_elem_of_omap. Qed.

Lemma resolvedTokens_elem entries answers t :
  t ∈ resolvedTokens entries answers ↔
  ∃ j e info, entries !! j = Some e ∧ answers !! j = Some (Some info)
              ∧ t = resolvedToken e info.
Proof.
  unfold resolvedTokens. rewrite list_elem_of_omap. split.
  - intros ([e r] & Hin & Ht). simpl in Ht.
    apply list_elem_of_lookup in Hin. destruct Hin as [j Hj].
    apply lookup_zip_Some in Hj. destruct Hj as [He Hr].
    destruct r as [info|]; [|done]. injection Ht as <-. eauto 6.
  - intros (j & e & info & He & Hr & ->). exists (e, Some info).
    split; [|done]. apply list_elem_of_lookup. exists j.
    by apply lookup_zip_Some.
Qed.

Lemma newlyEligible_elem eligible cached e :
  e ∈ newlyEligible eligible cached ↔
  (e.1 ∉ TokenDetails.address <$> cached) ∧ e ∈ eligible.
Proof. unfold newlyEligible. by rewrite list_elem_of_filter. Qed.

(** Every record of the merged list carries the address of an eligible
    entry: a known one is the record cached for it, a new one is the record
    built for an entry the cache does not have, with the entry's slot id. *)
Lemma merged_elem eligible cached answers t :
  t ∈ knownTokens eligible cached
      ++ resolvedTokens (newlyEligible eligible cached) answers →
  (cachedRecord cached (TokenDetails.address t) = Some t
   ∧ TokenDetails.address t ∈ JsMap.keys eligible)
  ∨ ((TokenDetails.address t ∉ TokenDetails.address <$> cached)
     ∧ (TokenDetails.address t, TokenDetails.id t) ∈ eligible).
Proof.
  rewrite elem_of_app, knownTokens_elem, resolvedTokens_elem.
  intros [(e & He & Hc)|(j & e & info & He & _ & ->)].
  - left. destruct (cachedRecord_Some _ _ _ Hc) as [_ Ha].
    rewrite Ha. split; [done|]. unfold JsMap.keys.
    apply list_elem_of_fmap. eauto.
  - right. apply list_elem_of_lookup_2, newlyEligible_elem in He.
    destruct e as [a slot]. simpl in *. done.
Qed.

(** C6: a pass of [updateTokenDetails] for which the eligible map has been
    computed and in which no probe throws completes, and persists exactly
    one list, whatever the probes resolved: the eligible tokens already in
    the cache, as cached, followed by the tokens resolved for the newly
    eligible entries. *)
Theorem C6_reconciliation_persists_merge networkId numTokens s eligible s1 :
  _getFilteredIdsMap env networkId numTokens s = (Ok eligible, s1) →
  let cached := tokenListApi_getTokens networkId s in
  let entries := newlyEligible eligible cached in
  (∀ j e, entries !! j = Some e →
     ∃ r, erc20_probe env (length (trace s1) + j) networkId e.1 = Ok r) →
  ∃ answers s',
    updateTokenDetails env networkId numTokens s = (Ok tt, s')
    ∧ length answers = length entries
    ∧ (∀ j e, entries !! j = Some e →
         ∃ r, answers !! j = Some r
              ∧ erc20_probe env (length (trace s1) + j) networkId e.1 = Ok r)
    ∧ persisted s'
      = persisted s ++ [(networkId, knownTokens eligible cached
                                    ++ resolvedTokens entries answers)]
    ∧ tokenListApi_getTokens networkId s'
      = knownTokens eligible cached ++ resolvedTokens entries answers.
Proof.
  intros HE cached entries Hok.
  destruct (quiet_fields _ _ _ _ (quiet__getFilteredIdsMap env networkId numTokens) HE)
    as (_ & _ & _ & _ & Hpers & _).
  destruct (updateTokenDetails_run networkId numTokens s eligible s1 HE Hok)
    as (answers & Hlen & Hans & Hrun).
  eexists answers, _. split; [exact Hrun|].
  split; [done|]. split; [done|].
  split; [simpl; by rewrite Hpers|apply reconciled_getTokens].
Qed.

(** C7: after a pass of [updateTokenDetails] that completes without error,
    the list given to [persistTokens] holds only addresses that are keys of
    the map [_getFilteredIdsMap] computed for the pass. *)
Theorem C7_persisted_addresses_eligible networkId numTokens s s' eligible s1 :
  updateTokenDetails env networkId numTokens s = (Ok tt, s') →
  _getFilteredIdsMap env networkId numTokens s = (Ok eligible, s1) →
  ∃ tokenList,
    persisted s' = persisted s ++ [(networkId, tokenList)]
    ∧ tokenListApi_getTokens networkId s' = tokenList
    ∧ ∀ t, t ∈ tokenList → TokenDetails.address t ∈ JsMap.keys eligible.
Proof.
  intros Hrun HE.
  destruct (updateTokenDetails_inv _ _ _ _ Hrun)
    as (eligible' & s1' & answers & HE' & _ & _ & ->).
  rewrite HE in HE'. injection HE' as <- <-.
  destruct (quiet_fields _ _ _ _ (quiet__getFilteredIdsMap env networkId numTokens) HE)
    as (_ & _ & _ & _ & Hpers & _).
  eexists. split; [simpl; by rewrite Hpers|].
  split; [apply reconciled_getTokens|].
  intros t Ht. apply merged_elem in Ht. destruct Ht as [[_ Hk]|[_ Hin]]; [done|].
  unfold JsMap.keys. apply list_elem_of_fmap. by eexists (_, _).
Qed.

(** C8: in a pass of [updateTokenDetails] in which no probe throws, a newly
    eligible address [X] whose probe answers null is not in the list
    persisted; the pass returns without error all the same, the flags are as
    they were, and the list holds every known token and every token built
    from a probe that did answer. *)
Theorem C8_null_probe_excluded networkId numTokens s eligible s1 X :
  _getFilteredIdsMap env networkId numTokens s = (Ok eligible, s1) →
  let cached := tokenListApi_getTokens networkId s in
  let entries := newlyEligible eligible cached in
  (∀ j e, entries !! j = Some e →
     ∃ r, erc20_probe env (length (trace s1) + j) networkId e.1 = Ok r) →
  X ∈ JsMap.keys eligible →
  X ∉ TokenDetails.address <$> cached →
  (∀ j e, entries !! j = Some e → e.1 = X →
     erc20_probe env (length (trace s1) + j) networkId X = Ok None) →
  ∃ s',
    updateTokenDetails env networkId numTokens s = (Ok tt, s')
    ∧ (X ∉ TokenDetails.address <$> tokenListApi_getTokens networkId s')
    ∧ areTokensUpdated s' = areTokensUpdated s
    ∧ (∀ t, t ∈ knownTokens eligible cached →
         t ∈ tokenListApi_getTokens networkId s')
    ∧ (∀ j e info, entries !! j = Some e →
         erc20_probe env (length (trace s1) + j) networkId e.1 = Ok (Some info) →
         resolvedToken e info ∈ tokenListApi_getTokens networkId s').
Proof.
  intros HE cached entries Hok HX Hnew Hnull.
  destruct (quiet_fields _ _ _ _ (quiet__getFilteredIdsMap env networkId numTokens) HE)
    as (_ & Hflags & _).
  destruct (updateTokenDetails_run networkId numTokens s eligible s1 HE Hok)
    as (answers & Hlen & Hans & Hrun).
  eexists. split; [exact Hrun|]. rewrite reconciled_getTokens.
  split; [|split; [done|split]].
  - intros Hin. apply list_elem_of_fmap in Hin. destruct Hin as (t & -> & Ht).
    apply elem_of_app in Ht. destruct Ht as [Ht|Ht].
    + apply knownTokens_elem in Ht. destruct Ht as (e & _ & Hc).
      destruct (cachedRecord_Some _ _ _ Hc) as [Hin Ha].
      apply Hnew. apply list_elem_of_fmap. eauto.
    + apply resolvedTokens_elem in Ht.
      destruct Ht as (j & e & info & He & Hr & ->). simpl in *.
      destruct (Hans j e He) as (r & Hr' & Hp).
      rewrite (Hnull j e He eq_refl) in Hp. congruence.
  - intros t Ht. apply elem_of_app. by left.
  - intros j e info He Hp. apply elem_of_app. right.
    apply resolvedTokens_elem. exists j, e, info.
    destruct (Hans j e He) as (r & Hr' & Hp'). rewrite Hp in Hp'.
    injection Hp' as <-. done.
Qed.

(** C10: after a pass of [updateTokenDetails] that completes without error,
    an eligible address that the cache has a record for is in the persisted
    list with that very record, whatever slot the contract scan gave the
    address, and with no other record; the slot of the scan is the id only
    of the records built for addresses the cache did not have. *)
Theorem C10_known_tokens_keep_cached_record networkId numTokens s s' eligible s1 :
  updateTokenDetails env networkId numTokens s = (Ok tt, s') →
  _getFilteredIdsMap env networkId numTokens s = (Ok eligible, s1) →
  let cached := tokenListApi_getTokens networkId s in
  let tokenList := tokenListApi_getTokens networkId s' in
  (∀ a slot t, (a, slot) ∈ eligible → cachedRecord cached a = Some t →
     t ∈ tokenList
     ∧ ∀ t', t' ∈ tokenList → TokenDetails.address t' = a → t' = t)
  ∧ (∀ t', t' ∈ tokenList →
       cachedRecord cached (TokenDetails.address t') = Some t'
       ∨ ((TokenDetails.address t' ∉ TokenDetails.address <$> cached)
          ∧ (TokenDetails.address t', TokenDetails.id t') ∈ eligible)).
Proof.
  intros Hrun HE cached tokenList.
  destruct (updateTokenDetails_inv _ _ _ _ Hrun)
    as (eligible' & s1' & answers & HE' & _ & _ & Hs').
  rewrite HE in HE'. injection HE' as <- <-.
  assert (Hlist : tokenList
            = knownTokens eligible cached
              ++ resolvedTokens (newlyEligible eligible cached) answers).
  { subst tokenList. rewrite Hs'. apply reconciled_getTokens. }
  rewrite Hlist. split.
  - intros a slot t Hin Hc. split.
    + apply elem_of_app. left. apply knownTokens_elem. by exists (a, slot).
    + intros t' Ht' Ha. apply merged_elem in Ht'.
      destruct Ht' as [[Hc' _]|[Hnot _]].
      * rewrite Ha in Hc'. congruence.
      * rewrite Ha in Hnot. apply cachedRecord_None in Hnot. congruence.
  - intros t' Ht'. apply merged_elem in Ht'. tauto.
Qed.

End Reconciliation.

(** ** The scenario of a newly listed token with no registry *)

Section Scenario.

Context (env : Collaborators).

Lemma retry_ok {A} (op : M A) s a s1 :
  op s = (Ok a, s1) → retry env op s = (Ok a, s1).
Proof.
  intros H. unfold retry. destruct (retry_extra env); simpl; [done|].
  unfold try_catch. by rewrite H.
Qed.

Lemma scenario_registry networkId :
  registry_unconfigured env networkId →
  ∃ calls, Forall (λ c, ¬ isProbe c) calls
    ∧ ∀ s, retry env (fetchTcrAddresses env networkId) s
           = (Ok ∅, set_trace (λ t, t ++ calls) s).
Proof.
  unfold registry_unconfigured, fetchTcrAddresses.
  destruct (tcrApi env) as [getTokens|]; intros Hreg.
  - exists [CallTcrGetTokens networkId]. split; [repeat constructor; auto|].
    intros s. apply retry_ok. unfold external. unfold_M. by rewrite Hreg.
  - exists []. split; [constructor|]. intros s. apply retry_ok.
    by rewrite set_trace_nil.
Qed.

Lemma slot_lookup networkId tokenId a s0 :
  (∀ n, exchange_getTokenAddressById env n networkId tokenId = Ok a) →
  (tokenAddress ← exchangeApi_getTokenAddressById env networkId tokenId;
   mret (tokenAddress, tokenId)) s0
  = (Ok (a, tokenId),
     set_trace (λ t, t ++ [CallGetTokenAddressById networkId tokenId]) s0).
Proof.
  intros H. unfold exchangeApi_getTokenAddressById, external. unfold_M.
  by rewrite H.
Qed.

Lemma scenario_scan networkId s tA tB C :
  scenario env networkId s tA tB C →
  ∀ s0, retry env (fetchAddressesAndIds env networkId 3) s0
        = (Ok [(TokenDetails.address tA, 0%Z); (TokenDetails.address tB, 1%Z);
               (C, 2%Z)],
           set_trace (λ t, t ++ [CallGetTokenAddressById networkId 0;
                                 CallGetTokenAddressById networkId 1;
                                 CallGetTokenAddressById networkId 2]) s0).
Proof.
  intros Hsc s0. destruct (sc_distinct _ _ _ _ _ _ Hsc) as (HAB & HCA & HCB).
  apply retry_ok. unfold fetchAddressesAndIds.
  change (indices 3) with [0%Z; 1%Z; 2%Z].
  cbn [fmap list_fmap promise_all].
  set (get := λ tokenId : Z,
         tokenAddress ← exchangeApi_getTokenAddressById env networkId tokenId;
         mret (tokenAddress, tokenId)).
  assert (H0 := slot_lookup networkId 0 _ s0 (sc_slot0 _ _ _ _ _ _ Hsc)).
  assert (H1 := slot_lookup networkId 1 _
                  (set_trace (λ t, t ++ [CallGetTokenAddressById networkId 0]) s0)
                  (sc_slot1 _ _ _ _ _ _ Hsc)).
  rewrite set_trace_app in H1.
  assert (H2 := slot_lookup networkId 2 _
                  (set_trace (λ t, t ++ [CallGetTokenAddressById networkId 0]
                                       ++ [CallGetTokenAddressById networkId 1]) s0)
                  (sc_slot2 _ _ _ _ _ _ Hsc)).
  rewrite set_trace_app in H2. fold (get 0%Z) in H0. fold (get 1%Z) in H1.
  fold (get 2%Z) in H2.
  erewrite bind_ok; [|erewrite bind_ok; [|exact H0]; erewrite bind_ok;
    [|erewrite bind_ok; [|exact H1]; erewrite bind_ok;
      [|erewrite bind_ok; [|exact H2]; reflexivity]; reflexivity]; reflexivity].
  unfold mret, M_ret. f_equal. f_equal.
  unfold JsMap.of_list. simpl.
  rewrite (decide_False (P := TokenDetails.address tA = TokenDetails.address tB))
    by done. simpl.
  rewrite (decide_False (P := TokenDetails.address tA = C)) by congruence.
  by rewrite (decide_False (P := TokenDetails.address tB = C)) by congruence.
Qed.

Lemma scenario_eligible networkId s tA tB C :
  scenario env networkId s tA tB C →
  ∃ calls, Forall (λ c, ¬ isProbe c) calls
    ∧ ∀ s0, tokenListApi_getTokens networkId s0 = [tA; tB] →
        _getFilteredIdsMap env networkId 3 s0
        = (Ok [(TokenDetails.address tA, 0%Z); (TokenDetails.address tB, 1%Z)],
           set_trace (λ t, t ++ calls) s0).
Proof.
  intros Hsc. destruct (sc_distinct _ _ _ _ _ _ Hsc) as (HAB & HCA & HCB).
  destruct (scenario_registry networkId (sc_registry _ _ _ _ _ _ Hsc))
    as (calls & Hcalls & Htcr).
  exists (calls ++ [CallGetTokenAddressById networkId 0;
                    CallGetTokenAddressById networkId 1;
                    CallGetTokenAddressById networkId 2]).
  split.
  { apply Forall_app. split; [done|]. repeat constructor; auto. }
  intros s0 Hcached. unfold _getFilteredIdsMap.
  rewrite (bind_ok _ _ _ _ _ (Htcr s0)).
  rewrite (bind_ok _ _ _ _ _ (scenario_scan networkId s tA tB C Hsc _)).
  rewrite size_empty. rewrite bool_decide_eq_false_2 by lia.
  unfold getCached. unfold_M.
  rewrite set_trace_app.
  rewrite (getTokens_store _ s0) by done. rewrite Hcached.
  f_equal. f_equal. simpl.
  rewrite (decide_True (P := TokenDetails.address tA = TokenDetails.address tA))
    by done.
  rewrite (decide_False (P := TokenDetails.address tA = TokenDetails.address tB))
    by done.
  rewrite (decide_True (P := TokenDetails.address tB = TokenDetails.address tB))
    by done.
  unfold JsMap.of_list. simpl.
  by rewrite (decide_False (P := TokenDetails.address tA = TokenDetails.address tB)).
Qed.

Lemma scenario_merge (tA tB : TokenDetails) x y :
  TokenDetails.address tA ≠ TokenDetails.address tB →
  let eligible := [(TokenDetails.address tA, x); (TokenDetails.address tB, y)] in
  newlyEligible eligible [tA; tB] = []
  ∧ knownTokens eligible [tA; tB] = [tA; tB].
Proof.
  intros HAB eligible. subst eligible. split.
  - unfold newlyEligible. rewrite !filter_cons, filter_nil. simpl.
    rewrite !decide_False; [done| |]; intros Hnot; apply Hnot; set_solver.
  - unfold knownTokens, cachedRecord. simpl.
    rewrite !filter_cons, filter_nil. simpl.
    rewrite (decide_True (P := TokenDetails.address tA = TokenDetails.address tA))
      by done.
    rewrite (decide_False (P := TokenDetails.address tB = TokenDetails.address tA))
      by congruence.
    rewrite (decide_False (P := TokenDetails.address tA = TokenDetails.address tB))
      by done.
    rewrite (decide_True (P := TokenDetails.address tB = TokenDetails.address tB))
      by done.
    done.
Qed.

(** C1, as the code has it: in the scenario, [updateTokens] fetches the
    count 3 and runs [updateTokenDetails]; with no registry the eligible
    addresses are those of the cache, so that no metadata probe is made and
    the list persisted is [[tA; tB]]. *)
Theorem C1_scenario_persists_cached_tokens networkId s tA tB C :
  scenario env networkId s tA tB C →
  ∃ s1 s',
    retry env (exchangeApi_getNumTokens env networkId)
      (updateTokens_start networkId s) = (Ok 3%Z, s1)
    ∧ updateTokens env networkId s = updateTokenDetails env networkId 3 s1
    ∧ updateTokens env networkId s = (Ok tt, s')
    ∧ persisted s' = persisted s ++ [(networkId, [tA; tB])]
    ∧ tokenListApi_getTokens networkId s' = [tA; tB]
    ∧ (∀ c, c ∈ trace s' → isProbe c → c ∈ trace s).
Proof.
  intros Hsc. destruct (sc_distinct _ _ _ _ _ _ Hsc) as (HAB & _).
  set (s0 := updateTokens_start networkId s).
  set (s1 := set_trace (λ t, t ++ [CallGetNumTokens networkId]) s0).
  assert (Hnum : retry env (exchangeApi_getNumTokens env networkId) s0
                 = (Ok 3%Z, s1)).
  { apply retry_ok. unfold exchangeApi_getNumTokens, external.
    by rewrite (sc_numTokens _ _ _ _ _ _ Hsc). }
  assert (Hfull : updateTokens env networkId s
                  = try_catch (updateTokenDetails env networkId 3)
                      (updateTokens_catch networkId) s1).
  { unfold updateTokens, updateTokens_resume, try_catch at 1. fold s0.
    rewrite (updateTokens_try_fetched env _ _ _ _ Hnum).
    change (tokenListApi_getTokens networkId s0)
      with (tokenListApi_getTokens networkId s).
    by rewrite (sc_cached _ _ _ _ _ _ Hsc). }
  destruct (scenario_eligible networkId s tA tB C Hsc) as (calls & Hcalls & HE).
  specialize (HE s1 (sc_cached _ _ _ _ _ _ Hsc)).
  destruct (scenario_merge tA tB 0 1 HAB) as [Hnew Hknown].
  destruct (updateTokenDetails_run env networkId 3 s1 _ _ HE)
    as (answers & Hlen & _ & Hrun).
  { change (tokenListApi_getTokens networkId s1)
      with (tokenListApi_getTokens networkId s).
    rewrite (sc_cached _ _ _ _ _ _ Hsc), Hnew. intros j e He.
    by rewrite lookup_nil in He. }
  change (tokenListApi_getTokens networkId s1)
    with (tokenListApi_getTokens networkId s) in Hrun.
  rewrite (sc_cached _ _ _ _ _ _ Hsc), Hnew, Hknown in Hrun.
  unfold resolvedTokens in Hrun. simpl in Hrun.
  unfold try_catch in Hfull. rewrite Hrun in Hfull.
  eexists s1, _. split; [exact Hnum|]. split; [by rewrite Hfull, Hrun|].
  split; [exact Hfull|]. split; [done|].
  split; [apply reconciled_getTokens|].
  intros c Hc Hprobe. simpl in Hc. rewrite !elem_of_app in Hc.
  destruct Hc as [[[Hc|Hc]|Hc]|Hc]; [done| | |].
  - apply list_elem_of_singleton in Hc. by subst c.
  - rewrite Forall_forall in Hcalls. by destruct (Hcalls c Hc).
  - by apply not_elem_of_nil in Hc.
Qed.

End Scenario.

(** ** The properties at concrete collaborators *)

Import Fixtures.

(** C1 as the specification states it does not hold: in the scenario, with
    no registry, 0xC is never probed and the list persisted is [[tA; tB]],
    not the cached tokens followed by a record for 0xC. *)
Lemma C1_counterexample :
  scenario env_noRegistry 1 s_cached tA tB "0xC"
  ∧ (let s' := (updateTokens env_noRegistry 1 s_cached).2 in
     tokenListApi_getTokens 1 s' = [tA; tB]
     ∧ persisted s' = [(1%Z, [tA; tB])]
     ∧ trace s' = [CallGetNumTokens 1; CallGetTokenAddressById 1 0;
                   CallGetTokenAddressById 1 1; CallGetTokenAddressById 1 2]
     ∧ ¬ ∃ t, tokenListApi_getTokens 1 s' = [tA; tB; t]).
Proof.
  split.
  - constructor; try done.
    intros n. by exists infoC.
  - vm_compute. split; [done|]. split; [done|]. split; [done|].
    intros [t Ht]. discriminate Ht.
Qed.

(** C1 holds of these collaborators, its hypotheses included. *)
Lemma C1_witness :
  ∃ s1 s',
    retry env_noRegistry (exchangeApi_getNumTokens env_noRegistry 1)
      (updateTokens_start 1 s_cached) = (Ok 3%Z, s1)
    ∧ updateTokens env_noRegistry 1 s_cached
      = updateTokenDetails env_noRegistry 1 3 s1
    ∧ updateTokens env_noRegistry 1 s_cached = (Ok tt, s')
    ∧ persisted s' = persisted s_cached ++ [(1%Z, [tA; tB])]
    ∧ tokenListApi_getTokens 1 s' = [tA; tB]
    ∧ (∀ c, c ∈ trace s' → isProbe c → c ∈ trace s_cached).
Proof.
  apply (C1_scenario_persists_cached_tokens env_noRegistry 1 s_cached tA tB "0xC").
  constructor; try done.
  intros n. by exists infoC.
Defined.

(** C2 holds of these collaborators, its hypotheses included. *)
Lemma C2_witness :
  let s1 := (retry env_noRegistry (exchangeApi_getNumTokens env_noRegistry 1)
               (updateTokens_start 1 s_cached)).2 in
  updateTokens env_noRegistry 1 s_cached
  = try_catch (updateTokenDetails env_noRegistry 1 3) (updateTokens_catch 1) s1.
Proof.
  intros s1.
  destruct (C2_updateTokens_decision env_noRegistry 1 s_cached 3 s1)
    as (_ & Hfull & _); [reflexivity|].
  apply Hfull. vm_compute. reflexivity.
Defined.

(** C3 holds of these collaborators, its hypotheses included. *)
Lemma C3_witness :
  ∃ s', updateTokenIds env_delisted 1 [tA; tB] 3 1000 true s_cached = (Ok tt, s')
        ∧ tokenListApi_getTokens 1 s' = [tA]
        ∧ persisted s' = [(1%Z, [tA])].
Proof.
  destruct (C3_id_refresh_rebuild env_delisted 1 [tA; tB] 3 1000 true s_cached
              [ {| token := tA; remove := false; failed := false |};
                {| token := tB; remove := true; failed := false |} ]
              (promise_all (updateTokenIdOrIndicateFailure env_delisted 1
                              <$> [tA; tB]) s_cached).2)
    as (s' & Hrun & Hlist & Hpers & _).
  - lia.
  - vm_compute. reflexivity.
  - eexists. split; [apply list_elem_of_here|]. right. reflexivity.
  - exists s'. split; [exact Hrun|]. split; [exact Hlist|exact Hpers].
Defined.

(** C4 holds of these collaborators, its hypotheses included. *)
Lemma C4_witness :
  let s' := (updateTokens env_down 1 s_cached).2 in
  (updateTokens env_down 1 s_cached).1 = Ok tt
  ∧ (1%Z ∉ areTokensUpdated s')
  ∧ background (getTokens 1 s').2 = background s' ++ [1%Z]
  ∧ 1%Z ∈ areTokensUpdated (getTokens 1 s').2.
Proof.
  apply (C4_failure_clears_flag env_down 1 s_cached (ExternalError "unreachable")
           (updateTokens_try env_down 1 (updateTokens_start 1 s_cached)).2).
  vm_compute. reflexivity.
Defined.

(** C5 holds of these collaborators, its hypotheses included. *)
Lemma C5_witness :
  ∃ s1 s2 s3 s4,
    updateTokenIds env_flaky 1 [tA; tB] 3 1000 true s_cached = (Ok tt, s1)
    ∧ timers s1 = [{| timer_delay := 1000; timer_networkId := 1;
                      timer_tokens := [tB]; timer_maxRetries := 2;
                      timer_retryDelay := 2000 |}]
    ∧ fireTimer env_flaky s1 = (Ok tt, s2)
    ∧ timers s2 = [{| timer_delay := 2000; timer_networkId := 1;
                      timer_tokens := [tB]; timer_maxRetries := 1;
                      timer_retryDelay := 4000 |}]
    ∧ fireTimer env_flaky s2 = (Ok tt, s3)
    ∧ timers s3 = [{| timer_delay := 4000; timer_networkId := 1;
                      timer_tokens := [tB]; timer_maxRetries := 0;
                      timer_retryDelay := 8000 |}]
    ∧ fireTimer env_flaky s3 = (Err (MaxRetriesExceeded 1 ["0xB"]), s4)
    ∧ timers s4 = [].
Proof.
  assert (Hfailing : filter (λ t, TokenDetails.address t ∈ ({["0xB"]} : gset string))
                       [tA; tB] = [tB]) by (vm_compute; reflexivity).
  assert (H := C5_retry_backoff env_flaky 1 {["0xB"]} [tA; tB] 1000 s_cached).
  cbv zeta in H. rewrite Hfailing in H. apply H.
  - intros n t _ Hin. apply elem_of_singleton in Hin. rewrite Hin.
    left. exact I.
  - intros n t Ht Hnot. apply elem_of_cons in Ht. destruct Ht as [->|Ht].
    + right. split; [reflexivity|]. by eexists.
    + apply list_elem_of_singleton in Ht. subst t.
      exfalso. apply Hnot. by apply elem_of_singleton.
  - discriminate.
  - reflexivity.
Defined.

(** C6 holds of these collaborators, its hypotheses included. *)
Lemma C6_witness :
  ∃ (answers : list (option Erc20Info)) s',
    updateTokenDetails env_registry 1 3 s_cached = (Ok tt, s')
    ∧ length answers = 1
    ∧ persisted s' = [(1%Z, [tA; tC])]
    ∧ tokenListApi_getTokens 1 s' = [tA; tC].
Proof.
  destruct (C6_reconciliation_persists_merge env_registry 1 3 s_cached
              [("0xA", 0%Z); ("0xC", 2%Z)]
              (_getFilteredIdsMap env_registry 1 3 s_cached).2)
    as (answers & s' & Hrun & Hlen & Hans & Hpers & Hlist).
  - vm_compute. reflexivity.
  - intros j e _. by exists (Some infoC).
  - exists answers, s'. split; [exact Hrun|]. split; [exact Hlen|].
    destruct answers as [|r [|r' answers]]; try discriminate Hlen.
    destruct (Hans 0 ("0xC", 2%Z) eq_refl) as (r0 & Hr0 & Hp).
    injection Hr0 as <-. injection Hp as <-.
    split; [exact Hpers|exact Hlist].
Defined.

(** C7 holds of these collaborators, its hypotheses included. *)
Lemma C7_witness :
  ∃ tokenList,
    persisted (updateTokenDetails env_registry 1 3 s_cached).2
    = persisted s_cached ++ [(1%Z, tokenList)]
    ∧ tokenListApi_getTokens 1 (updateTokenDetails env_registry 1 3 s_cached).2
      = tokenList
    ∧ ∀ t, t ∈ tokenList →
        TokenDetails.address t ∈ JsMap.keys [("0xA", 0%Z); ("0xC", 2%Z)].
Proof.
  apply (C7_persisted_addresses_eligible env_registry 1 3 s_cached _ _
           (_getFilteredIdsMap env_registry 1 3 s_cached).2).
  - vm_compute. reflexivity.
  - vm_compute. reflexivity.
Defined.

(** C8 holds of these collaborators, its hypotheses included. *)
Lemma C8_witness :
  ∃ s',
    updateTokenDetails env_notErc20 1 3 s_cached = (Ok tt, s')
    ∧ ("0xC" ∉ TokenDetails.address <$> tokenListApi_getTokens 1 s')
    ∧ areTokensUpdated s' = areTokensUpdated s_cached
    ∧ tA ∈ tokenListApi_getTokens 1 s'.
Proof.
  destruct (C8_null_probe_excluded env_notErc20 1 3 s_cached
              [("0xA", 0%Z); ("0xC", 2%Z)]
              (_getFilteredIdsMap env_notErc20 1 3 s_cached).2 "0xC")
    as (s' & Hrun & Hout & Hflags & Hknown & _).
  - vm_compute. reflexivity.
  - intros j e _. by exists None.
  - vm_compute. apply list_elem_of_further, list_elem_of_here.
  - vm_compute. intros Hin. apply elem_of_cons in Hin.
    destruct Hin as [Hin|Hin]; [discriminate Hin|].
    apply list_elem_of_singleton in Hin. discriminate Hin.
  - intros j e _ _. reflexivity.
  - exists s'. split; [exact Hrun|]. split; [exact Hout|].
    split; [exact Hflags|]. apply Hknown. vm_compute. apply list_elem_of_here.
Defined.

(** C10 holds of these collaborators, its hypotheses included. *)
Lemma C10_witness :
  let tokenList :=
    tokenListApi_getTokens 1 (updateTokenDetails env_noRegistry 1 3 s_stale).2 in
  TokenDetails.id tB_stale = 7%Z
  ∧ tB_stale ∈ tokenList
  ∧ ∀ t', t' ∈ tokenList → TokenDetails.address t' = "0xB" → t' = tB_stale.
Proof.
  intros tokenList. split; [reflexivity|].
  destruct (C10_known_tokens_keep_cached_record env_noRegistry 1 3 s_stale
              (updateTokenDetails env_noRegistry 1 3 s_stale).2
              [("0xA", 0%Z); ("0xB", 1%Z)]
              (_getFilteredIdsMap env_noRegistry 1 3 s_stale).2)
    as [Hkeep _].
  - vm_compute. reflexivity.
  - vm_compute. reflexivity.
  - apply (Hkeep "0xB" 1%Z tB_stale).
    + apply list_elem_of_further, list_elem_of_here.
    + vm_compute. reflexivity.
Defined.

(** * Further properties *)

(** ** The insertion-ordered map *)

Lemma jsmap_get_set_eq {V} (m : JsMap.t V) k v :
  JsMap.get (JsMap.set m k v) k = Some v.
Proof.
  induction m as [|[k' v'] m IH]; cbn [JsMap.get JsMap.set].
  - by rewrite decide_True.
  - case_decide as Hk; cbn [JsMap.get].
    + by rewrite decide_True.
    + by rewrite decide_False.
Qed.

Lemma jsmap_get_set_ne {V} (m : JsMap.t V) k k' v :
  k ≠ k' → JsMap.get (JsMap.set m k v) k' = JsMap.get m k'.
Proof.
  intros Hne. induction m as [|[k0 v0] m IH]; cbn [JsMap.get JsMap.set].
  - by rewrite decide_False.
  - case_decide as Hk; cbn [JsMap.get].
    + subst k0. by rewrite !decide_False.
    + case_decide; [done|apply IH].
Qed.

Lemma jsmap_keys_set {V} (m : JsMap.t V) k v :
  JsMap.keys (JsMap.set m k v)
  = if decide (k ∈ JsMap.keys m) then JsMap.keys m else JsMap.keys m ++ [k].
Proof.
  unfold JsMap.keys.
  induction m as [|[k' v'] m IH]; cbn [JsMap.set fmap list_fmap fst].
  - rewrite decide_False; [done|]. apply not_elem_of_nil.
  - destruct (decide (k' = k)) as [Hk|Hk]; cbn [fmap list_fmap fst].
    + subst k'. rewrite decide_True; [done|]. apply list_elem_of_here.
    + rewrite IH. destruct (decide (k ∈ m.*1)) as [Hin|Hin].
      * rewrite decide_True; [done|]. by apply list_elem_of_further.
      * rewrite decide_False; [done|].
        intros Hin'. apply elem_of_cons in Hin'. destruct Hin' as [->|]; done.
Qed.

Lemma jsmap_of_list_snoc {V} (l : list (string * V)) p :
  JsMap.of_list (l ++ [p]) = JsMap.set (JsMap.of_list l) p.1 p.2.
Proof. unfold JsMap.of_list. by rewrite foldl_app. Qed.

(** A map built by [new Map(pairs)] holds every key once. *)
Lemma jsmap_NoDup_of_list {V} (l : list (string * V)) :
  NoDup (JsMap.keys (JsMap.of_list l)).
Proof.
  induction l as [|p l IH] using rev_ind; [constructor|].
  rewrite jsmap_of_list_snoc, jsmap_keys_set. case_decide as Hin; [done|].
  apply NoDup_app. split; [done|]. split.
  - intros x Hx Hx'. apply list_elem_of_singleton in Hx'. by subst x.
  - apply NoDup_singleton.
Qed.

(** [get] on a map built from pairs: the value of the last pair with the
    key. *)
Lemma jsmap_get_of_list {V} (l : list (string * V)) k :
  JsMap.get (JsMap.of_list l) k = snd <$> last (filter (λ p, p.1 = k) l).
Proof.
  induction l as [|p l IH] using rev_ind; [done|].
  rewrite jsmap_of_list_snoc, filter_app, filter_cons, filter_nil.
  case_decide as Hk.
  - rewrite <- Hk, jsmap_get_set_eq, last_snoc. done.
  - rewrite jsmap_get_set_ne by done. by rewrite app_nil_r.
Qed.

Lemma jsmap_elem_of_get {V} (m : JsMap.t V) k v :
  NoDup (JsMap.keys m) → (k, v) ∈ m ↔ JsMap.get m k = Some v.
Proof.
  unfold JsMap.keys.
  induction m as [|[k' v'] m IH]; cbn [JsMap.get fmap list_fmap fst]; intros Hnd.
  - split; [intros H; by apply not_elem_of_nil in H|done].
  - apply NoDup_cons in Hnd. destruct Hnd as [Hnot Hnd].
    rewrite elem_of_cons, (IH Hnd). case_decide as Hk.
    + subst k'. split.
      * intros [[= ->]|Hget]; [done|]. exfalso. apply Hnot.
        apply (IH Hnd) in Hget. apply list_elem_of_fmap. by exists (k, v).
      * intros [= ->]. by left.
    + split; [intros [[= -> ->]|]; done|by right].
Qed.

(** When the pairs give one value per key, the map holds exactly the
    pairs. *)
Lemma jsmap_of_list_functional {V} (l : list (string * V)) k v :
  (∀ k0 v1 v2, (k0, v1) ∈ l → (k0, v2) ∈ l → v1 = v2) →
  (k, v) ∈ JsMap.of_list l ↔ (k, v) ∈ l.
Proof.
  intros Hfun.
  rewrite (jsmap_elem_of_get _ _ _ (jsmap_NoDup_of_list l)), jsmap_get_of_list.
  split.
  - intros Hlast. destruct (last _) as [[k0 v0]|] eqn:Hl; [|done].
    simpl in Hlast. injection Hlast as ->.
    apply last_Some_elem_of, list_elem_of_filter in Hl. simpl in Hl.
    destruct Hl as [-> Hin]. done.
  - intros Hin.
    assert (Hf : (k, v) ∈ filter (λ p, p.1 = k) l)
      by (by apply list_elem_of_filter).
    destruct (last (filter (λ p, p.1 = k) l)) as [[k0 v0]|] eqn:Hl.
    + apply last_Some_elem_of, list_elem_of_filter in Hl. simpl in Hl.
      destruct Hl as [-> Hin0]. simpl. f_equal. by eapply Hfun.
    + apply last_None in Hl. rewrite Hl in Hf. by apply not_elem_of_nil in Hf.
Qed.

(** Building a map from the entries of a map gives the same map. *)
Lemma jsmap_of_list_entries {V} (m : JsMap.t V) :
  NoDup (JsMap.keys m) → JsMap.of_list m = m.
Proof.
  induction m as [|[k v] m IH] using rev_ind; [done|]. intros Hnd.
  unfold JsMap.keys in Hnd. rewrite fmap_app in Hnd.
  apply NoDup_app in Hnd. destruct Hnd as (Hnd & Hnot & _).
  rewrite jsmap_of_list_snoc, (IH Hnd). simpl.
  assert (Hk : k ∉ JsMap.keys m).
  { intros Hin. apply (Hnot k Hin). apply list_elem_of_here. }
  clear -Hk. induction m as [|[k' v'] m IH]; [done|]. cbn [JsMap.set].
  unfold JsMap.keys in Hk. rewrite fmap_cons in Hk. cbn [fst] in Hk.
  rewrite decide_False.
  2:{ intros ->. apply Hk, list_elem_of_here. }
  rewrite IH; [done|]. intros Hin. by apply Hk, list_elem_of_further.
Qed.

(** ** What a pass leaves alone *)

Lemma pass_frame_refl networkId s : pass_frame networkId s s.
Proof.
  constructor; try done.
  - exists []. by rewrite app_nil_r.
  - exists []. by rewrite app_nil_r.
  - exists []. by rewrite app_nil_r.
Qed.

Lemma pass_frame_trans networkId s1 s2 s3 :
  pass_frame networkId s1 s2 → pass_frame networkId s2 s3 →
  pass_frame networkId s1 s3.
Proof.
  intros [F1 B1 O1 [c1 T1] (l1 & P1 & Q1) (t1 & R1 & U1)]
         [F2 B2 O2 [c2 T2] (l2 & P2 & Q2) (t2 & R2 & U2)].
  constructor.
  - by rewrite F2.
  - by rewrite B2.
  - intros n Hn. by rewrite O2, O1.
  - exists (c1 ++ c2). by rewrite T2, T1, app_assoc.
  - exists (l1 ++ l2). split; [by rewrite P2, P1, app_assoc|by apply Forall_app].
  - exists (t1 ++ t2). split; [by rewrite R2, R1, app_assoc|by apply Forall_app].
Qed.

Lemma pass_frame_quiet {A} networkId (m : M A) s :
  quiet m → pass_frame networkId s (m s).2.
Proof.
  intros Hq. destruct (Hq s) as [calls ->]. constructor; simpl; try done.
  - by exists calls.
  - exists []. by rewrite app_nil_r.
  - exists []. by rewrite app_nil_r.
Qed.

Lemma pass_frame_persist networkId tokenList s :
  pass_frame networkId s (tokenListApi_persistTokens networkId tokenList s).2.
Proof.
  constructor; simpl; try done.
  - intros n Hn. unfold tokenListApi_getTokens. simpl.
    by rewrite lookup_insert_ne.
  - exists []. by rewrite app_nil_r.
  - exists [(networkId, tokenList)]. split; [done|]. by repeat constructor.
  - exists []. by rewrite app_nil_r.
Qed.

Lemma pass_frame_setTimeout networkId t s :
  timer_networkId t = networkId →
  pass_frame networkId s (setTimeout t s).2.
Proof.
  intros Ht. constructor; simpl; try done.
  - exists []. by rewrite app_nil_r.
  - exists []. by rewrite app_nil_r.
  - exists [t]. split; [done|]. by repeat constructor.
Qed.

(** ** More on the id-only refresh *)

Section IdRefreshFurther.

Context (env : Collaborators).

(** A pass with retries left, in two steps after the batch: the list is
    persisted when something was removed or updated, and a timer is set
    when something failed. *)
Lemma updateTokenIds_steps networkId tokens maxRetries retryDelay
    (exponentialBackOff : bool) s results s1 :
  (0 < maxRetries)%Z →
  promise_all (updateTokenIdOrIndicateFailure env networkId <$> tokens) s
  = (Ok results, s1) →
  let c := classify results in
  let s2 :=
    if bool_decide (0 < size (toRemove c)) || bool_decide (0 < size (updated c))
    then (tokenListApi_persistTokens networkId
            (refreshed results (tokenListApi_getTokens networkId s)) s1).2
    else s1 in
  let s3 :=
    if bool_decide (0 < length (failedTokens results))
    then (setTimeout
            {| timer_delay := retryDelay; timer_networkId := networkId;
               timer_tokens := failedTokens results;
               timer_maxRetries := (maxRetries - 1)%Z;
               timer_retryDelay :=
                 (retryDelay * (if exponentialBackOff then 2 else 1))%Z |} s2).2
    else s2 in
  updateTokenIds env networkId tokens maxRetries retryDelay exponentialBackOff s
  = (Ok tt, s3).
Proof.
  intros Hmax Hbatch c s2 s3. subst s3 s2 c.
  destruct (quiet_fields _ _ _ _ (quiet_refresh_batch env networkId tokens) Hbatch)
    as (Hstore & _).
  unfold updateTokenIds. rewrite bool_decide_eq_false_2 by lia.
  rewrite (bind_ok _ _ _ _ _ Hbatch). cbv zeta.
  rewrite classify_failedToUpdate.
  destruct (_ || _);
    destruct (bool_decide (0 < length (failedTokens results)));
    unfold getCached, tokenListApi_persistTokens, setTimeout;
    unfold_M; cbv beta iota; cbn [snd];
    rewrite ?rebuild_refreshed, ?(getTokens_store _ _ _ Hstore); reflexivity.
Qed.

(** X1: with retries left, [updateTokenIds] never throws, whatever the
    collaborators answer, and it leaves the flags, the suspended
    invocations and the lists of the other networks as they are; what it
    persists and the timer it sets are for its own network. *)
Theorem X1_updateTokenIds_contained networkId tokens maxRetries retryDelay
    exponentialBackOff s :
  (0 < maxRetries)%Z →
  ∃ s',
    updateTokenIds env networkId tokens maxRetries retryDelay exponentialBackOff s
    = (Ok tt, s')
    ∧ pass_frame networkId s s'.
Proof.
  intros Hmax.
  destruct (refresh_batch env networkId tokens s) as (results & s1 & Hbatch & _).
  rewrite (updateTokenIds_steps _ _ _ retryDelay exponentialBackOff _ _ _
             Hmax Hbatch).
  eexists. split; [reflexivity|].
  assert (H1 : pass_frame networkId s s1).
  { replace s1 with
      (promise_all (updateTokenIdOrIndicateFailure env networkId <$> tokens) s).2
      by (by rewrite Hbatch).
    apply pass_frame_quiet, quiet_refresh_batch. }
  eapply pass_frame_trans;
    [|destruct (bool_decide (0 < length (failedTokens results)));
      [by apply pass_frame_setTimeout|apply pass_frame_refl]].
  eapply pass_frame_trans; [exact H1|].
  destruct (_ || _); [apply pass_frame_persist|apply pass_frame_refl].
Qed.

Lemma classify_all_failed tokens :
  classify ((λ t, {| token := t; remove := false; failed := true |}) <$> tokens)
  = {| updated := ∅; failedToUpdate := tokens; toRemove := ∅ |}.
Proof.
  induction tokens as [|t tokens IH] using rev_ind; [done|].
  by rewrite fmap_app, fmap_cons, fmap_nil, classify_snoc, IH.
Qed.

Lemma refresh_batch_all_failed networkId tokens s results s1 :
  (∀ n t, t ∈ tokens → fails_at env n networkId (TokenDetails.address t)) →
  promise_all (updateTokenIdOrIndicateFailure env networkId <$> tokens) s
  = (Ok results, s1) →
  results = (λ t, {| token := t; remove := false; failed := true |}) <$> tokens.
Proof.
  intros Hfail Hbatch.
  destruct (refresh_batch env networkId tokens s) as (results' & s1' & Hb & HF).
  rewrite Hbatch in Hb. injection Hb as <- <-. clear Hbatch.
  revert Hfail.
  induction HF as [|t r tokens results (n & _ & ->) _ IH]; intros Hfail;
    [done|].
  rewrite fmap_cons. f_equal.
  - apply outcome_fails, Hfail. by left.
  - apply IH. intros n' t' Ht'. apply Hfail. by right.
Qed.

(** X2: a pass in which every query fails (an empty batch included)
    persists nothing and leaves the cache as it is; it sets one timer over
    the whole batch, and none when the batch is empty. *)
Theorem X2_all_failed_persists_nothing networkId tokens maxRetries retryDelay
    (exponentialBackOff : bool) s :
  (0 < maxRetries)%Z →
  (∀ n t, t ∈ tokens → fails_at env n networkId (TokenDetails.address t)) →
  ∃ s',
    updateTokenIds env networkId tokens maxRetries retryDelay exponentialBackOff s
    = (Ok tt, s')
    ∧ store s' = store s
    ∧ persisted s' = persisted s
    ∧ timers s'
      = timers s
        ++ match tokens with
           | [] => []
           | _ => [{| timer_delay := retryDelay; timer_networkId := networkId;
                      timer_tokens := tokens;
                      timer_maxRetries := (maxRetries - 1)%Z;
                      timer_retryDelay :=
                        (retryDelay * (if exponentialBackOff then 2 else 1))%Z |}]
           end.
Proof.
  intros Hmax Hfail.
  destruct (refresh_batch env networkId tokens s) as (results & s1 & Hbatch & _).
  destruct (quiet_fields _ _ _ _ (quiet_refresh_batch env networkId tokens) Hbatch)
    as (Hstore & _ & _ & Htimers & Hpers & _).
  rewrite (updateTokenIds_steps _ _ _ retryDelay exponentialBackOff _ _ _
             Hmax Hbatch).
  rewrite (refresh_batch_all_failed _ _ _ _ _ Hfail Hbatch).
  rewrite <- classify_failedToUpdate, classify_all_failed. cbn [toRemove updated
    failedToUpdate]. rewrite size_empty, map_size_empty. cbn [orb bool_decide].
  rewrite (bool_decide_eq_false_2 (0 < 0)) by lia. cbn [orb].
  eexists. split; [reflexivity|].
  destruct tokens as [|t tokens].
  - rewrite bool_decide_eq_false_2 by (simpl; lia).
    rewrite app_nil_r. done.
  - rewrite bool_decide_eq_true_2 by (simpl; lia). simpl.
    by rewrite Hstore, Hpers, Htimers.
Qed.

(** The list cached after a pass: the refreshed list when something was
    removed or updated, the list as it was otherwise. *)
Lemma updateTokenIds_cached networkId tokens maxRetries retryDelay
    (exponentialBackOff : bool) s results s1 :
  (0 < maxRetries)%Z →
  promise_all (updateTokenIdOrIndicateFailure env networkId <$> tokens) s
  = (Ok results, s1) →
  let s' := (updateTokenIds env networkId tokens maxRetries retryDelay
               exponentialBackOff s).2 in
  tokenListApi_getTokens networkId s'
  = refreshed results (tokenListApi_getTokens networkId s)
  ∨ tokenListApi_getTokens networkId s' = tokenListApi_getTokens networkId s.
Proof.
  intros Hmax Hbatch.
  destruct (quiet_fields _ _ _ _ (quiet_refresh_batch env networkId tokens) Hbatch)
    as (Hstore & _).
  rewrite (updateTokenIds_steps _ _ _ retryDelay exponentialBackOff _ _ _
             Hmax Hbatch). cbn [snd].
  destruct (_ || _); [left|right];
    destruct (bool_decide (0 < length (failedTokens results)));
    unfold tokenListApi_getTokens; simpl;
    rewrite ?lookup_insert_eq, ?Hstore; done.
Qed.

(** X3: the id-only refresh adds no address and keeps the order: the
    addresses cached after a pass are a sublist of the addresses cached
    before, so that a list without a repeated address stays one. *)
Theorem X3_id_refresh_keeps_addresses networkId tokens maxRetries retryDelay
    (exponentialBackOff : bool) s :
  (0 < maxRetries)%Z →
  let s' := (updateTokenIds env networkId tokens maxRetries retryDelay
               exponentialBackOff s).2 in
  let before := TokenDetails.address <$> tokenListApi_getTokens networkId s in
  let after := TokenDetails.address <$> tokenListApi_getTokens networkId s' in
  after `sublist_of` before
  ∧ (NoDup before → NoDup after)
  ∧ length (tokenListApi_getTokens networkId s')
    ≤ length (tokenListApi_getTokens networkId s).
Proof.
  intros Hmax s' before after.
  destruct (refresh_batch env networkId tokens s) as (results & s1 & Hbatch & _).
  assert (Hsub : after `sublist_of` before).
  { subst after before s'.
    destruct (updateTokenIds_cached networkId tokens maxRetries retryDelay
                exponentialBackOff s results s1 Hmax Hbatch) as [-> | ->].
    - rewrite refreshed_addresses. apply sublist_filter.
    - done. }
  split; [done|]. split.
  - intros Hnd. by eapply sublist_NoDup.
  - apply sublist_length in Hsub. subst after before.
    by rewrite !length_fmap in Hsub.
Qed.

Lemma outcome_updated n networkId t :
  remove (outcome env n networkId t) = false →
  failed (outcome env n networkId t) = false →
  ∃ i, token (outcome env n networkId t) = TokenDetails.set_id t i.
Proof.
  unfold outcome.
  destruct (exchange_hasToken env _ _ _) as [[|]|]; try done.
  destruct (exchange_getTokenIdByAddress env _ _ _) as [i|]; try done.
  by exists i.
Qed.

Lemma same_but_id_refl t : same_but_id t t.
Proof. by destruct t. Qed.

(** X4: the id-only refresh changes ids only: every record cached after a
    pass is, but for its id, a record cached before or a record of the
    batch. *)
Theorem X4_id_refresh_changes_only_ids networkId tokens maxRetries retryDelay
    (exponentialBackOff : bool) s :
  (0 < maxRetries)%Z →
  let s' := (updateTokenIds env networkId tokens maxRetries retryDelay
               exponentialBackOff s).2 in
  ∀ t', t' ∈ tokenListApi_getTokens networkId s' →
    ∃ t, (t ∈ tokenListApi_getTokens networkId s ∨ t ∈ tokens)
         ∧ same_but_id t t'.
Proof.
  intros Hmax s' t' Ht'.
  destruct (refresh_batch env networkId tokens s) as (results & s1 & Hbatch & HF).
  subst s'.
  destruct (updateTokenIds_cached networkId tokens maxRetries retryDelay
              exponentialBackOff s results s1 Hmax Hbatch) as [Hc | Hc];
    rewrite Hc in Ht'.
  2:{ exists t'. split; [by left|apply same_but_id_refl]. }
  unfold refreshed in Ht'. apply list_elem_of_fmap in Ht'.
  destruct Ht' as (t & -> & Ht). apply list_elem_of_filter in Ht.
  destruct Ht as [_ Ht].
  destruct (updatedRecord results (TokenDetails.address t)) as [u|] eqn:Hu.
  2:{ exists t. split; [by left|apply same_but_id_refl]. }
  simpl. unfold updatedRecord in Hu.
  apply last_Some_elem_of, list_elem_of_fmap in Hu.
  destruct Hu as (r & -> & Hr). apply list_elem_of_filter in Hr.
  destruct Hr as ((Hrem & Hfailed & _) & Hr).
  apply list_elem_of_lookup in Hr. destruct Hr as [j Hj].
  destruct (Forall2_lookup_r _ _ _ _ _ HF Hj) as (t0 & Ht0 & n & _ & ->).
  destruct (outcome_updated n networkId t0 Hrem Hfailed) as [i Hi].
  exists t0. split; [right; by eapply list_elem_of_lookup_2|].
  rewrite Hi. unfold same_but_id. by destruct t0.
Qed.

(** X5: started with [exponentialBackOff] off, the batch keeps the delay
    for the first retry only: the timer callback does not pass the flag on,
    so the later rounds double the delay again.  For a batch in which
    exactly the tokens with an address in [F] fail, the timers are set for
    [d], [d] and [2d]. *)
Theorem X5_backoff_off_first_round_only networkId (F : gset string) tokens d s :
  (∀ n t, t ∈ tokens → TokenDetails.address t ∈ F →
     fails_at env n networkId (TokenDetails.address t)) →
  (∀ n t, t ∈ tokens → TokenDetails.address t ∉ F →
     settles_at env n networkId (TokenDetails.address t)) →
  let failing := filter (λ t, TokenDetails.address t ∈ F) tokens in
  failing ≠ [] →
  timers s = [] →
  ∃ s1 s2 s3,
    updateTokenIds env networkId tokens 3 d false s = (Ok tt, s1)
    ∧ timers s1 = [{| timer_delay := d; timer_networkId := networkId;
                      timer_tokens := failing; timer_maxRetries := 2;
                      timer_retryDelay := d |}]
    ∧ fireTimer env s1 = (Ok tt, s2)
    ∧ timers s2 = [{| timer_delay := d; timer_networkId := networkId;
                      timer_tokens := failing; timer_maxRetries := 1;
                      timer_retryDelay := (d * 2)%Z |}]
    ∧ fireTimer env s2 = (Ok tt, s3)
    ∧ timers s3 = [{| timer_delay := (d * 2)%Z; timer_networkId := networkId;
                      timer_tokens := failing; timer_maxRetries := 0;
                      timer_retryDelay := (d * 2 * 2)%Z |}].
Proof.
  intros Hfail Hsettle failing Hne Hnone.
  assert (Hfail' : ∀ n t, t ∈ failing → TokenDetails.address t ∈ F →
            fails_at env n networkId (TokenDetails.address t)).
  { intros n t Ht. apply Hfail. apply list_elem_of_filter in Ht. tauto. }
  assert (Hsettle' : ∀ n t, t ∈ failing → TokenDetails.address t ∉ F →
            settles_at env n networkId (TokenDetails.address t)).
  { intros n t Ht. apply Hsettle. apply list_elem_of_filter in Ht. tauto. }
  assert (Hidem : filter (λ t, TokenDetails.address t ∈ F) failing = failing).
  { subst failing. apply list_filter_filter_l. tauto. }
  assert (Hne' : filter (λ t, TokenDetails.address t ∈ F) failing ≠ [])
    by (by rewrite Hidem).
  destruct (updateTokenIds_schedules env networkId F tokens 3 d false s
              ltac:(lia) Hfail Hsettle Hne) as (s1 & H1 & T1).
  rewrite Hnone in T1. simpl in T1. fold failing in T1.
  rewrite Z.mul_1_r in T1.
  destruct (updateTokenIds_schedules env networkId F failing 2 d true
              (set_timers (λ _, []) s1) ltac:(lia) Hfail' Hsettle' Hne')
    as (s2 & H2 & T2).
  rewrite Hidem in T2. simpl in T2.
  destruct (updateTokenIds_schedules env networkId F failing 1 (d * 2) true
              (set_timers (λ _, []) s2) ltac:(lia) Hfail' Hsettle' Hne')
    as (s3 & H3 & T3).
  rewrite Hidem in T3. simpl in T3.
  exists s1, s2, s3.
  split; [done|]. split; [done|].
  split; [unfold fireTimer; by rewrite T1|]. split; [done|].
  split; [unfold fireTimer; by rewrite T2|]. done.
Qed.

(** X6: when the oldest timer has no retry left, firing it throws, naming
    the addresses of its tokens, without a call made or a list persisted;
    the flags stay, so that for a flagged network the accessor goes on
    returning the cached list without starting [updateTokens]. *)
Theorem X6_exhausted_retries_stay_flagged s tm rest :
  timers s = tm :: rest →
  (timer_maxRetries tm ≤ 0)%Z →
  let r := fireTimer env s in
  r.1 = Err (MaxRetriesExceeded (timer_networkId tm)
               (TokenDetails.address <$> timer_tokens tm))
  ∧ r.2 = set_timers (λ _, rest) s
  ∧ (timer_networkId tm ∈ areTokensUpdated s →
     getTokens (timer_networkId tm) r.2
     = (tokenListApi_getTokens (timer_networkId tm) s, r.2)).
Proof.
  intros Htimers Hmax r. subst r. unfold fireTimer. rewrite Htimers.
  unfold updateTokenIds. rewrite bool_decide_eq_true_2 by done.
  unfold throw. cbn [fst snd]. split; [done|]. split; [done|].
  intros Hflag. by rewrite getTokens_flagged.
Qed.

End IdRefreshFurther.

(** ** The contract scan *)

Section ContractScan.

Context (env : Collaborators).

Lemma indices_succ (N : nat) :
  indices (Z.of_nat (S N)) = indices (Z.of_nat N) ++ [Z.of_nat N].
Proof.
  unfold indices. rewrite !Nat2Z.id, seq_S, fmap_app. done.
Qed.

Lemma indices_elem n i : i ∈ indices n ↔ (0 ≤ i < n)%Z.
Proof.
  unfold indices. rewrite list_elem_of_fmap. split.
  - intros (k & -> & Hk). apply elem_of_seq in Hk. lia.
  - intros Hi. exists (Z.to_nat i). split; [lia|]. apply elem_of_seq. lia.
Qed.

(** The lookups of a scan over the slots [l], all answered. *)
Lemma scan_slots networkId (addr : Z → string) (l : list Z) s :
  (∀ k i, i ∈ l → exchange_getTokenAddressById env k networkId i = Ok (addr i)) →
  promise_all ((λ tokenId,
                  tokenAddress ← exchangeApi_getTokenAddressById env networkId tokenId;
                  mret (tokenAddress, tokenId)) <$> l) s
  = (Ok ((λ i, (addr i, i)) <$> l),
     set_trace (λ t, t ++ (CallGetTokenAddressById networkId <$> l)) s).
Proof.
  revert s. induction l as [|i l IH]; intros s Hok.
  - simpl. by rewrite set_trace_nil.
  - rewrite !fmap_cons. cbn [promise_all].
    rewrite (bind_ok _ _ _ _ _ (slot_lookup env networkId i (addr i) s
                                  (λ k, Hok k i ltac:(left)))).
    rewrite (bind_ok _ _ _ _ _
               (IH _ (λ k j Hj, Hok k j ltac:(by right)))).
    unfold mret, M_ret. by rewrite set_trace_app.
Qed.

(** Among the first [N] slots, the last one that holds an address. *)
Lemma scan_last_slot (addr : Z → string) (N : nat) a i :
  snd <$> last (filter (λ p, p.1 = a)
                  ((λ i, (addr i, i)) <$> indices (Z.of_nat N))) = Some i
  ↔ (0 ≤ i < Z.of_nat N)%Z ∧ addr i = a
    ∧ ∀ j, (i < j < Z.of_nat N)%Z → addr j ≠ a.
Proof.
  induction N as [|N IH].
  - simpl. split; [done|lia].
  - rewrite indices_succ, fmap_app, filter_app, fmap_cons, fmap_nil,
      filter_cons, filter_nil. cbn [fst].
    destruct (decide (addr (Z.of_nat N) = a)) as [Ha|Ha].
    + rewrite last_snoc. simpl. split.
      * intros [= <-]. split; [lia|]. split; [done|]. intros j Hj. lia.
      * intros (Hi & _ & Hafter). f_equal.
        destruct (decide (i = Z.of_nat N)) as [->|Hne]; [done|].
        exfalso. apply (Hafter (Z.of_nat N)); [lia|done].
    + rewrite app_nil_r, IH. split.
      * intros (Hi & Hai & Hafter). split; [lia|]. split; [done|].
        intros j Hj. destruct (decide (j = Z.of_nat N)) as [->|Hne]; [done|].
        apply Hafter. lia.
      * intros (Hi & Hai & Hafter).
        assert (i ≠ Z.of_nat N) by (intros ->; done).
        split; [lia|]. split; [done|]. intros j Hj. apply Hafter. lia.
Qed.

(** X7: a scan whose slots all answer makes one lookup per slot, in slot
    order, and gives a map that holds each address once, under the last
    slot that holds the address: looking an address up gives slot [i]
    exactly when [i] is below [numTokens], holds the address, and no later
    slot below [numTokens] does. *)
Theorem X7_scan_maps_address_to_last_slot networkId numTokens
    (addr : Z → string) s :
  (∀ k i, (0 ≤ i < numTokens)%Z →
     exchange_getTokenAddressById env k networkId i = Ok (addr i)) →
  ∃ listed s',
    fetchAddressesAndIds env networkId numTokens s = (Ok listed, s')
    ∧ trace s' = trace s ++ (CallGetTokenAddressById networkId <$> indices numTokens)
    ∧ NoDup (JsMap.keys listed)
    ∧ ∀ a i, JsMap.get listed a = Some i
             ↔ (0 ≤ i < numTokens)%Z ∧ addr i = a
               ∧ ∀ j, (i < j < numTokens)%Z → addr j ≠ a.
Proof.
  intros Hok. unfold fetchAddressesAndIds.
  rewrite (bind_ok _ _ _ _ _ (scan_slots networkId addr (indices numTokens) s
             (λ k i Hi, Hok k i (proj1 (indices_elem _ _) Hi)))).
  eexists _, _. split; [reflexivity|]. split; [done|].
  split; [apply jsmap_NoDup_of_list|].
  intros a i. rewrite jsmap_get_of_list.
  destruct (decide (0 ≤ numTokens)%Z) as [Hn|Hn].
  - rewrite <- (Z2Nat.id numTokens Hn). apply scan_last_slot.
  - replace (indices numTokens) with (@nil Z).
    + simpl. split; [done|lia].
    + unfold indices. by replace (Z.to_nat numTokens) with 0 by lia.
Qed.

(** The lookups of a scan over slots one of which is never answered. *)
Lemma scan_slots_err networkId (l : list Z) i s :
  i ∈ l →
  (∀ k, is_err (exchange_getTokenAddressById env k networkId i)) →
  ∃ e s',
    promise_all ((λ tokenId,
                    tokenAddress ← exchangeApi_getTokenAddressById env networkId tokenId;
                    mret (tokenAddress, tokenId)) <$> l) s
    = (Err e, s').
Proof.
  intros Hin Herr. revert s.
  induction l as [|x l IH]; intros s; [by apply not_elem_of_nil in Hin|].
  rewrite fmap_cons. cbn [promise_all].
  set (get := λ tokenId : Z,
         tokenAddress ← exchangeApi_getTokenAddressById env networkId tokenId;
         mret (tokenAddress, tokenId)).
  destruct (get x s) as [[p|e] s1] eqn:Hx.
  - rewrite (bind_ok _ _ _ _ _ Hx).
    apply elem_of_cons in Hin. destruct Hin as [->|Hin].
    + exfalso. subst get. unfold exchangeApi_getTokenAddressById, external in Hx.
      unfold_M. specialize (Herr (length (trace s))).
      by destruct (exchange_getTokenAddressById env _ _ _).
    + destruct (IH Hin s1) as (e & s' & He).
      exists e, s'. by rewrite (bind_err _ _ _ _ _ He).
  - exists e, s1. by apply bind_err.
Qed.

Lemma retry_from_err {A} (op : M A) k :
  (∀ s, ∃ e s', op s = (Err e, s')) →
  ∀ s, ∃ e s', retry_from k op s = (Err e, s').
Proof.
  intros Hop. induction k as [|k IH]; intros s; simpl; [apply Hop|].
  unfold try_catch. destruct (Hop s) as (e & s' & ->). apply IH.
Qed.

Lemma retry_from_ok_inv {A} (op : M A) k s a s' :
  retry_from k op s = (Ok a, s') → ∃ s0, op s0 = (Ok a, s').
Proof.
  revert s. induction k as [|k IH]; intros s; simpl; [eauto|].
  unfold try_catch. destruct (op s) as [[a0|e] s1] eqn:Hop.
  - intros [= <- <-]. eauto.
  - apply IH.
Qed.

End ContractScan.

(** ** More on the full reconciliation and the orchestrator *)

Section ReconciliationFurther.

Context (env : Collaborators).

Lemma pass_frame_calls networkId calls s :
  pass_frame networkId s (set_trace (λ t, t ++ calls) s).
Proof.
  constructor; simpl; try done.
  - by exists calls.
  - exists []. by rewrite app_nil_r.
  - exists []. by rewrite app_nil_r.
Qed.

Lemma quiet_probes networkId (entries : list (string * Z)) :
  quiet (promise_all ((λ e, fullTokenPromise env networkId e.1 e.2) <$> entries)).
Proof.
  apply quiet_promise_all, Forall_fmap, Forall_forall. intros e _.
  apply quiet_fullTokenPromise.
Qed.

(** A pass that throws has only made calls. *)
Lemma updateTokenDetails_err networkId numTokens s e s' :
  updateTokenDetails env networkId numTokens s = (Err e, s') →
  ∃ calls, s' = set_trace (λ t, t ++ calls) s.
Proof.
  unfold updateTokenDetails. intros H.
  destruct (quiet__getFilteredIdsMap env networkId numTokens s) as [c1 Hq1].
  destruct (_getFilteredIdsMap env networkId numTokens s) as [[E|e0] s1] eqn:HE;
    simpl in Hq1; subst s1.
  2:{ rewrite (bind_err _ _ _ _ _ HE) in H. injection H as <- <-. eauto. }
  rewrite (bind_ok _ _ _ _ _ HE) in H.
  unfold getCached at 1 in H. unfold mbind at 1, M_bind at 1 in H.
  cbv zeta in H. rewrite gathered_local, gathered_promises in H.
  set (ps := promise_all _) in H.
  destruct (quiet_probes networkId
              (newlyEligible E (tokenListApi_getTokens networkId
                                  (set_trace (λ t, t ++ c1) s)))
              (set_trace (λ t, t ++ c1) s)) as [c2 Hq2].
  fold ps in Hq2.
  destruct (ps (set_trace (λ t, t ++ c1) s)) as [[fetched|e1] s2] eqn:Hf;
    simpl in Hq2; subst s2.
  - rewrite (bind_ok _ _ _ _ _ Hf) in H. discriminate H.
  - rewrite (bind_err _ _ _ _ _ Hf) in H. injection H as <- <-.
    exists (c1 ++ c2). by rewrite set_trace_app.
Qed.

(** X13: when [updateTokenDetails] throws (the registry or the scan fails
    after its retries, or a probe throws), it has persisted nothing: the
    state differs from the one before by the calls made only. *)
Theorem X13_failed_reconciliation_persists_nothing networkId numTokens s e s' :
  updateTokenDetails env networkId numTokens s = (Err e, s') →
  store s' = store s
  ∧ persisted s' = persisted s
  ∧ areTokensUpdated s' = areTokensUpdated s
  ∧ timers s' = timers s
  ∧ background s' = background s
  ∧ ∃ calls, trace s' = trace s ++ calls.
Proof.
  intros H. destruct (updateTokenDetails_err _ _ _ _ _ H) as [calls ->].
  simpl. eauto 10.
Qed.

(** X8: when a slot below [numTokens] is never answered, the scan fails
    whatever the retries, and [updateTokenDetails] throws having persisted
    nothing. *)
Theorem X8_unreadable_slot_fails_reconciliation networkId numTokens i s :
  (0 ≤ i < numTokens)%Z →
  (∀ k, is_err (exchange_getTokenAddressById env k networkId i)) →
  (∀ s0, ∃ e s1, retry env (fetchAddressesAndIds env networkId numTokens) s0
                 = (Err e, s1))
  ∧ ∃ e s',
      updateTokenDetails env networkId numTokens s = (Err e, s')
      ∧ store s' = store s ∧ persisted s' = persisted s.
Proof.
  intros Hi Herr.
  assert (Hscan : ∀ s0, ∃ e s1,
            retry env (fetchAddressesAndIds env networkId numTokens) s0
            = (Err e, s1)).
  { apply retry_from_err. intros s0. unfold fetchAddressesAndIds.
    destruct (scan_slots_err env networkId (indices numTokens) i s0
                (proj2 (indices_elem _ _) Hi) Herr) as (e & s1 & He).
    exists e, s1. by apply bind_err. }
  split; [exact Hscan|].
  assert (HE : ∃ e s1, _getFilteredIdsMap env networkId numTokens s = (Err e, s1)).
  { unfold _getFilteredIdsMap.
    destruct (retry env (fetchTcrAddresses env networkId) s) as [[tcr|e] sa] eqn:Ht.
    - rewrite (bind_ok _ _ _ _ _ Ht). destruct (Hscan sa) as (e & s1 & He).
      exists e, s1. by apply bind_err.
    - exists e, sa. by apply bind_err. }
  destruct HE as (e & s1 & HE).
  assert (Hrun : updateTokenDetails env networkId numTokens s = (Err e, s1)).
  { unfold updateTokenDetails. by apply bind_err. }
  exists e, s1. split; [exact Hrun|].
  destruct (updateTokenDetails_err _ _ _ _ _ Hrun) as [calls ->]. done.
Qed.

Lemma updateTokenDetails_frame networkId numTokens s :
  pass_frame networkId s (updateTokenDetails env networkId numTokens s).2.
Proof.
  destruct (updateTokenDetails env networkId numTokens s) as [[[]|e] s'] eqn:H.
  - destruct (updateTokenDetails_inv _ _ _ _ _ H)
      as (E & s1 & answers & HE & _ & _ & ->). simpl.
    destruct (quiet__getFilteredIdsMap env networkId numTokens s) as [c1 Hq1].
    rewrite HE in Hq1. simpl in Hq1. subst s1.
    eapply pass_frame_trans; [apply pass_frame_calls|].
    eapply pass_frame_trans; [apply pass_frame_calls|].
    apply pass_frame_persist.
  - destruct (updateTokenDetails_err _ _ _ _ _ H) as [calls ->].
    apply pass_frame_calls.
Qed.

Lemma updateTokenIds_frame networkId tokens maxRetries retryDelay
    (exponentialBackOff : bool) s :
  pass_frame networkId s
    (updateTokenIds env networkId tokens maxRetries retryDelay
       exponentialBackOff s).2.
Proof.
  destruct (decide (0 < maxRetries)%Z) as [Hmax|Hmax].
  - destruct (refresh_batch env networkId tokens s) as (results & s1 & Hbatch & _).
    rewrite (updateTokenIds_steps env _ _ _ retryDelay exponentialBackOff _ _ _
               Hmax Hbatch). cbn [snd].
    assert (H1 : pass_frame networkId s s1).
    { replace s1 with
        (promise_all (updateTokenIdOrIndicateFailure env networkId <$> tokens) s).2
        by (by rewrite Hbatch).
      apply pass_frame_quiet, quiet_refresh_batch. }
    eapply pass_frame_trans;
      [|destruct (bool_decide (0 < length (failedTokens results)));
        [by apply pass_frame_setTimeout|apply pass_frame_refl]].
    eapply pass_frame_trans; [exact H1|].
    destruct (_ || _); [apply pass_frame_persist|apply pass_frame_refl].
  - unfold updateTokenIds. rewrite bool_decide_eq_true_2 by lia.
    apply pass_frame_refl.
Qed.

Lemma updateTokens_try_frame networkId s0 :
  pass_frame networkId s0 (updateTokens_try env networkId s0).2.
Proof.
  destruct (quiet_getNumTokens env networkId s0) as [c1 Hq1].
  destruct (retry env (exchangeApi_getNumTokens env networkId) s0)
    as [[numTokens|e] s1] eqn:Hnum; simpl in Hq1; subst s1.
  - rewrite (updateTokens_try_fetched env _ _ _ _ Hnum). cbv zeta.
    eapply pass_frame_trans; [apply pass_frame_calls|].
    case_bool_decide; [apply updateTokenDetails_frame|apply updateTokenIds_frame].
  - unfold updateTokens_try. rewrite (bind_err _ _ _ _ _ Hnum).
    apply pass_frame_calls.
Qed.

(** X14: [updateTokens] never throws.  After it the network is flagged
    exactly when no failure escaped its [try] block; the flags and the
    cached lists of the other networks, and the suspended invocations, are
    as before. *)
Theorem X14_updateTokens_never_throws networkId s :
  let r := updateTokens env networkId s in
  r.1 = Ok tt
  ∧ (networkId ∈ areTokensUpdated r.2
     ↔ (updateTokens_try env networkId (updateTokens_start networkId s)).1 = Ok tt)
  ∧ background r.2 = background s
  ∧ ∀ n, n ≠ networkId →
      (n ∈ areTokensUpdated r.2 ↔ n ∈ areTokensUpdated s)
      ∧ tokenListApi_getTokens n r.2 = tokenListApi_getTokens n s.
Proof.
  intros r. subst r. unfold updateTokens, updateTokens_resume, try_catch.
  assert (Hframe := updateTokens_try_frame networkId
                      (updateTokens_start networkId s)).
  destruct (updateTokens_try env networkId (updateTokens_start networkId s))
    as [[[]|e] s1]; cbn [fst snd] in *;
    destruct Hframe as [Hflags Hbg Hothers _ _ _].
  - split; [done|]. split.
    { split; [done|]. intros _. rewrite Hflags. simpl. set_solver. }
    split; [by rewrite Hbg|].
    intros n Hn. rewrite Hflags, (Hothers n Hn). simpl. set_solver.
  - unfold updateTokens_catch. cbn [fst snd]. split; [done|]. split.
    { simpl. split; [|done]. set_solver. }
    split; [simpl; by rewrite Hbg|].
    intros n Hn. split.
    + simpl. rewrite Hflags. simpl. set_solver.
    + exact (Hothers n Hn).
Qed.

End ReconciliationFurther.

(** ** The eligible map *)

Section Eligible.

Context (env : Collaborators).

Lemma getFilteredIdsMap_steps networkId numTokens s tcr sa listed s1 :
  retry env (fetchTcrAddresses env networkId) s = (Ok tcr, sa) →
  retry env (fetchAddressesAndIds env networkId numTokens) sa = (Ok listed, s1) →
  _getFilteredIdsMap env networkId numTokens s
  = (Ok (eligibleEntries tcr listed (tokenListApi_getTokens networkId s)), s1).
Proof.
  intros Ht Hl.
  destruct (quiet_fields _ _ _ _
              (quiet_retry env _ (quiet_fetchTcrAddresses env networkId)) Ht)
    as (Hs1 & _).
  destruct (quiet_fields _ _ _ _
              (quiet_retry env _ (quiet_fetchAddressesAndIds env networkId numTokens))
              Hl) as (Hs2 & _).
  unfold _getFilteredIdsMap, eligibleEntries.
  rewrite (bind_ok _ _ _ _ _ Ht), (bind_ok _ _ _ _ _ Hl).
  case_bool_decide; [done|].
  unfold getCached. unfold_M.
  rewrite (getTokens_store networkId s s1) by (by rewrite Hs2, Hs1). done.
Qed.

Lemma getFilteredIdsMap_inv networkId numTokens s eligible s1 :
  _getFilteredIdsMap env networkId numTokens s = (Ok eligible, s1) →
  ∃ tcr sa listed,
    retry env (fetchTcrAddresses env networkId) s = (Ok tcr, sa)
    ∧ retry env (fetchAddressesAndIds env networkId numTokens) sa = (Ok listed, s1)
    ∧ eligible = eligibleEntries tcr listed (tokenListApi_getTokens networkId s).
Proof.
  intros H. unfold _getFilteredIdsMap in H.
  destruct (retry env (fetchTcrAddresses env networkId) s) as [[tcr|e] sa] eqn:Ht.
  2:{ rewrite (bind_err _ _ _ _ _ Ht) in H. discriminate H. }
  rewrite (bind_ok _ _ _ _ _ Ht) in H.
  destruct (retry env (fetchAddressesAndIds env networkId numTokens) sa)
    as [[listed|e] s2] eqn:Hl.
  2:{ rewrite (bind_err _ _ _ _ _ Hl) in H. discriminate H. }
  rewrite (bind_ok _ _ _ _ _ Hl) in H.
  assert (Hsteps := getFilteredIdsMap_steps networkId numTokens s _ _ _ _ Ht Hl).
  unfold _getFilteredIdsMap in Hsteps.
  rewrite (bind_ok _ _ _ _ _ Ht), (bind_ok _ _ _ _ _ Hl) in Hsteps.
  rewrite Hsteps in H. injection H as <- <-. eauto 6.
Qed.

Lemma scan_NoDup networkId numTokens sa listed s1 :
  retry env (fetchAddressesAndIds env networkId numTokens) sa = (Ok listed, s1) →
  NoDup (JsMap.keys listed).
Proof.
  intros H. apply retry_from_ok_inv in H. destruct H as [s0 H].
  unfold fetchAddressesAndIds in H. apply bind_inv in H.
  destruct H as (pairs & s2 & _ & H). injection H as <- <-.
  apply jsmap_NoDup_of_list.
Qed.

Lemma eligibleEntries_NoDup tcr listed cached :
  NoDup (JsMap.keys (eligibleEntries tcr listed cached)).
Proof.
  unfold eligibleEntries. case_bool_decide; apply jsmap_NoDup_of_list.
Qed.

Lemma eligibleEntries_elem tcr (listed : JsMap.t Z) cached a i :
  NoDup (JsMap.keys listed) →
  (a, i) ∈ eligibleEntries tcr listed cached
  ↔ JsMap.get listed a = Some i ∧ allowed tcr cached a.
Proof.
  intros Hnd. unfold eligibleEntries, allowed. case_bool_decide.
  - rewrite jsmap_of_list_functional.
    + rewrite list_elem_of_filter, (jsmap_elem_of_get _ _ _ Hnd). simpl. tauto.
    + intros k v1 v2 H1 H2. apply list_elem_of_filter in H1, H2.
      destruct H1 as [_ H1], H2 as [_ H2].
      apply (jsmap_elem_of_get _ _ _ Hnd) in H1, H2. congruence.
  - assert (Hin : ∀ k v,
        (k, v) ∈ filter_notEmpty
          ((λ token,
              match JsMap.get listed (TokenDetails.address token) with
              | Some tokenId => Some (TokenDetails.address token, tokenId)
              | None => None
              end) <$> cached)
        ↔ JsMap.get listed k = Some v ∧ k ∈ TokenDetails.address <$> cached).
    { intros k v. unfold filter_notEmpty.
      rewrite list_elem_of_omap. setoid_rewrite list_elem_of_fmap. split.
      - intros (o & (t & -> & Ht) & Ho). simpl in Ho.
        destruct (JsMap.get listed (TokenDetails.address t)) as [v0|] eqn:Hg;
          [|done].
        injection Ho as <- <-. split; [done|]. eauto.
      - intros (Hg & t & -> & Ht). exists (Some (TokenDetails.address t, v)).
        split; [|done]. exists t. by rewrite Hg. }
    rewrite jsmap_of_list_functional.
    + apply Hin.
    + intros k v1 v2 H1 H2. apply Hin in H1, H2. destruct H1, H2. congruence.
Qed.

(** X9: once the registry and the scan have answered, the eligible map
    holds each address once, and holds exactly the listed addresses that
    are allowed, each with its listed slot; an address is allowed when it
    is on the registry, if the registry answered any address, and when it
    is cached otherwise. *)
Theorem X9_eligible_is_listed_and_allowed networkId numTokens s tcr sa listed s1 :
  retry env (fetchTcrAddresses env networkId) s = (Ok tcr, sa) →
  retry env (fetchAddressesAndIds env networkId numTokens) sa = (Ok listed, s1) →
  ∃ eligible,
    _getFilteredIdsMap env networkId numTokens s = (Ok eligible, s1)
    ∧ NoDup (JsMap.keys eligible)
    ∧ ∀ a i, (a, i) ∈ eligible
             ↔ JsMap.get listed a = Some i
               ∧ allowed tcr (tokenListApi_getTokens networkId s) a.
Proof.
  intros Ht Hl. eexists. split; [by eapply getFilteredIdsMap_steps|].
  split; [apply eligibleEntries_NoDup|].
  intros a i. apply eligibleEntries_elem. by eapply scan_NoDup.
Qed.

Lemma knownTokens_addresses eligible cached :
  TokenDetails.address <$> knownTokens eligible cached
  `sublist_of` JsMap.keys eligible.
Proof.
  unfold knownTokens, JsMap.keys.
  induction eligible as [|e eligible IH]; [done|]. simpl.
  destruct (cachedRecord cached e.1) as [t|] eqn:Hc; simpl.
  - destruct (cachedRecord_Some _ _ _ Hc) as [_ ->]. by apply sublist_skip.
  - by apply sublist_cons.
Qed.

Lemma resolvedTokens_addresses entries answers :
  TokenDetails.address <$> resolvedTokens entries answers
  `sublist_of` JsMap.keys entries.
Proof.
  unfold resolvedTokens, JsMap.keys. revert answers.
  induction entries as [|e entries IH]; intros [|r answers]; simpl;
    try apply sublist_nil_l.
  destruct r as [info|]; simpl.
  - apply sublist_skip, IH.
  - apply sublist_cons, IH.
Qed.

Lemma merged_NoDup eligible cached answers :
  NoDup (JsMap.keys eligible) →
  NoDup (TokenDetails.address
           <$> knownTokens eligible cached
               ++ resolvedTokens (newlyEligible eligible cached) answers).
Proof.
  intros Hnd. rewrite fmap_app. apply NoDup_app. split; [|split].
  - eapply sublist_NoDup; [exact Hnd|apply knownTokens_addresses].
  - intros a Hknown Hnew.
    apply list_elem_of_fmap in Hknown. destruct Hknown as (t & -> & Ht).
    apply knownTokens_elem in Ht. destruct Ht as (e & _ & Hc).
    destruct (cachedRecord_Some _ _ _ Hc) as [Hin _].
    apply list_elem_of_fmap in Hnew. destruct Hnew as (t' & Ha & Ht').
    apply resolvedTokens_elem in Ht'.
    destruct Ht' as (j & e' & info & He' & _ & ->). simpl in Ha.
    apply list_elem_of_lookup_2, newlyEligible_elem in He'.
    destruct He' as [Hnot _]. apply Hnot. rewrite <- Ha.
    apply list_elem_of_fmap. eauto.
  - eapply sublist_NoDup; [|apply resolvedTokens_addresses].
    eapply sublist_NoDup; [exact Hnd|].
    unfold JsMap.keys, newlyEligible. apply fmap_sublist, sublist_filter.
Qed.

(** X10: the list a completed [updateTokenDetails] persists holds every
    address at most once, whatever the cached list was. *)
Theorem X10_reconciled_addresses_unique networkId numTokens s s' :
  updateTokenDetails env networkId numTokens s = (Ok tt, s') →
  NoDup (TokenDetails.address <$> tokenListApi_getTokens networkId s').
Proof.
  intros Hrun.
  destruct (updateTokenDetails_inv _ _ _ _ _ Hrun)
    as (eligible & s1 & answers & HE & _ & _ & ->).
  rewrite reconciled_getTokens. apply merged_NoDup.
  destruct (getFilteredIdsMap_inv _ _ _ _ _ HE) as (tcr & sa & listed & _ & _ & ->).
  apply eligibleEntries_NoDup.
Qed.

End Eligible.

(** ** What the full reconciliation keeps and drops *)

Section Pruning.

Context (env : Collaborators).

(** X12: after a completed [updateTokenDetails], every address persisted
    is listed by the contract scan of the pass and allowed (on the registry
    if it answered any address, cached otherwise); a cached address that is
    not listed, or not allowed, is gone; and a record for an address the
    cache did not have carries the listed slot as its id. *)
Theorem X12_reconciliation_keeps_listed_and_allowed networkId numTokens s tcr sa
    listed s1 s' :
  retry env (fetchTcrAddresses env networkId) s = (Ok tcr, sa) →
  retry env (fetchAddressesAndIds env networkId numTokens) sa = (Ok listed, s1) →
  updateTokenDetails env networkId numTokens s = (Ok tt, s') →
  let cached := tokenListApi_getTokens networkId s in
  let tokenList := tokenListApi_getTokens networkId s' in
  (∀ t, t ∈ tokenList →
     is_Some (JsMap.get listed (TokenDetails.address t))
     ∧ allowed tcr cached (TokenDetails.address t))
  ∧ (∀ t, t ∈ cached →
       JsMap.get listed (TokenDetails.address t) = None
       ∨ ¬ allowed tcr cached (TokenDetails.address t) →
       TokenDetails.address t ∉ TokenDetails.address <$> tokenList)
  ∧ (∀ t, t ∈ tokenList →
       TokenDetails.address t ∉ TokenDetails.address <$> cached →
       JsMap.get listed (TokenDetails.address t) = Some (TokenDetails.id t)).
Proof.
  intros Ht Hl Hrun cached tokenList.
  assert (Hnd := scan_NoDup env _ _ _ _ _ Hl).
  assert (HE := getFilteredIdsMap_steps env networkId numTokens s _ _ _ _ Ht Hl).
  destruct (updateTokenDetails_inv _ _ _ _ _ Hrun)
    as (eligible & s1' & answers & HE' & _ & _ & Hs').
  rewrite HE in HE'. injection HE' as <- <-.
  assert (Hlist : tokenList
            = knownTokens (eligibleEntries tcr listed cached) cached
              ++ resolvedTokens
                   (newlyEligible (eligibleEntries tcr listed cached) cached)
                   answers).
  { subst tokenList. rewrite Hs'. apply reconciled_getTokens. }
  assert (Hsound : ∀ t, t ∈ tokenList →
            is_Some (JsMap.get listed (TokenDetails.address t))
            ∧ allowed tcr cached (TokenDetails.address t)).
  { intros t Hin. rewrite Hlist in Hin. apply merged_elem in Hin.
    assert (∃ i, (TokenDetails.address t, i) ∈ eligibleEntries tcr listed cached)
      as [i Hi].
    { destruct Hin as [[_ Hk]|[_ Hin]]; [|eauto].
      unfold JsMap.keys in Hk. apply list_elem_of_fmap in Hk.
      destruct Hk as ([a i] & Ha & Hin). simpl in Ha. subst a. eauto. }
    apply (eligibleEntries_elem tcr listed cached _ _ Hnd) in Hi.
    destruct Hi as [Hg Hal]. split; [by rewrite Hg|done]. }
  split; [exact Hsound|]. split.
  - intros t _ Hbad Hin. apply list_elem_of_fmap in Hin.
    destruct Hin as (t' & Ha & Ht'). destruct (Hsound t' Ht') as [Hsome Hal].
    rewrite <- Ha in Hsome, Hal. destruct Hbad as [Hnone|Hnot]; [|done].
    rewrite Hnone in Hsome. by destruct Hsome.
  - intros t Hin Hnew. rewrite Hlist in Hin. apply merged_elem in Hin.
    destruct Hin as [[Hc _]|[_ Hin]].
    + apply cachedRecord_Some in Hc. destruct Hc as [Hc _].
      exfalso. apply Hnew. apply list_elem_of_fmap. eauto.
    + by apply (eligibleEntries_elem tcr listed cached _ _ Hnd) in Hin as [? _].
Qed.

Lemma filter_none {A} (P : A → Prop) `{∀ x, Decision (P x)} (l : list A) :
  (∀ x, x ∈ l → ¬ P x) → filter P l = [].
Proof.
  intros Hnone. induction l as [|x l IH]; [done|].
  rewrite filter_cons, decide_False by (apply Hnone; left).
  apply IH. intros y Hy. apply Hnone. by right.
Qed.

Lemma cachedRecord_NoDup cached t :
  NoDup (TokenDetails.address <$> cached) → t ∈ cached →
  cachedRecord cached (TokenDetails.address t) = Some t.
Proof.
  intros Hnd Ht.
  destruct (cachedRecord cached (TokenDetails.address t)) as [u|] eqn:Hc.
  - destruct (cachedRecord_Some _ _ _ Hc) as [Hu Ha]. f_equal.
    apply list_elem_of_lookup in Hu, Ht. destruct Hu as [i Hi], Ht as [j Hj].
    assert (i = j); [|congruence].
    eapply NoDup_lookup; [exact Hnd| |];
      rewrite list_lookup_fmap; [by rewrite Hi|by rewrite Hj, Ha].
  - apply cachedRecord_None in Hc. exfalso. apply Hc.
    apply list_elem_of_fmap. eauto.
Qed.

Lemma fallback_keys (listed : JsMap.t Z) (l : list TokenDetails) :
  JsMap.keys
    (filter_notEmpty
       ((λ token,
           match JsMap.get listed (TokenDetails.address token) with
           | Some tokenId => Some (TokenDetails.address token, tokenId)
           | None => None
           end) <$> l))
  `sublist_of` TokenDetails.address <$> l.
Proof.
  unfold JsMap.keys, filter_notEmpty.
  induction l as [|t l IH]; [done|]. rewrite !fmap_cons. simpl.
  destruct (JsMap.get listed (TokenDetails.address t)); simpl.
  - by apply sublist_skip.
  - by apply sublist_cons.
Qed.

Lemma fallback_known (listed : JsMap.t Z) cached (l : list TokenDetails) :
  (∀ t, t ∈ l → cachedRecord cached (TokenDetails.address t) = Some t) →
  knownTokens
    (filter_notEmpty
       ((λ token,
           match JsMap.get listed (TokenDetails.address token) with
           | Some tokenId => Some (TokenDetails.address token, tokenId)
           | None => None
           end) <$> l)) cached
  = filter (λ t, is_Some (JsMap.get listed (TokenDetails.address t))) l.
Proof.
  unfold knownTokens, filter_notEmpty. intros Hrec.
  induction l as [|t l IH]; [done|]. rewrite fmap_cons, filter_cons.
  assert (IH' := IH (λ t' Ht', Hrec t' ltac:(by right))). clear IH.
  case_decide as Hd.
  - destruct Hd as [i Hg]. cbn [omap list_omap]. rewrite Hg. simpl.
    rewrite (Hrec t) by (by left). f_equal. exact IH'.
  - cbn [omap list_omap].
    destruct (JsMap.get listed (TokenDetails.address t)) as [i|] eqn:Hg.
    + exfalso. apply Hd. eauto.
    + simpl. exact IH'.
Qed.

(** X11: when the registry answers no address (or there is none), a pass
    of [updateTokenDetails] whose scan succeeds always completes, without a
    single probe; every record persisted is a cached record whose address
    is listed, so no token is ever added; and when the cached addresses are
    distinct the list persisted is the cached list without the records
    whose address is not listed, in the same order. *)
Theorem X11_no_registry_only_prunes networkId numTokens s tcr sa listed s1 :
  retry env (fetchTcrAddresses env networkId) s = (Ok tcr, sa) →
  size tcr = 0 →
  retry env (fetchAddressesAndIds env networkId numTokens) sa = (Ok listed, s1) →
  let cached := tokenListApi_getTokens networkId s in
  ∃ s',
    updateTokenDetails env networkId numTokens s = (Ok tt, s')
    ∧ trace s' = trace s1
    ∧ (∀ t, t ∈ tokenListApi_getTokens networkId s' →
         t ∈ cached ∧ is_Some (JsMap.get listed (TokenDetails.address t)))
    ∧ (NoDup (TokenDetails.address <$> cached) →
       tokenListApi_getTokens networkId s'
       = filter (λ t, is_Some (JsMap.get listed (TokenDetails.address t))) cached).
Proof.
  intros Ht Hsize Hl cached.
  assert (Hnd := scan_NoDup env _ _ _ _ _ Hl).
  assert (HE := getFilteredIdsMap_steps env networkId numTokens s _ _ _ _ Ht Hl).
  fold cached in HE. set (eligible := eligibleEntries tcr listed cached) in *.
  assert (Helem : ∀ a i, (a, i) ∈ eligible
            → JsMap.get listed a = Some i ∧ a ∈ TokenDetails.address <$> cached).
  { intros a i Hin. apply (eligibleEntries_elem tcr listed cached _ _ Hnd) in Hin.
    unfold allowed in Hin. rewrite Hsize in Hin.
    by rewrite bool_decide_eq_false_2 in Hin by lia. }
  assert (Hnew : newlyEligible eligible cached = []).
  { unfold newlyEligible. apply filter_none. intros [a i] Hin Hnot.
    apply Hnot. by apply (Helem a i). }
  destruct (updateTokenDetails_run env networkId numTokens s eligible s1 HE)
    as (answers & Hlen & _ & Hrun).
  { fold cached. rewrite Hnew. intros j e He. by rewrite lookup_nil in He. }
  fold cached in Hrun. rewrite Hnew in Hrun.
  unfold resolvedTokens in Hrun. simpl in Hrun. rewrite app_nil_r in Hrun.
  eexists. split; [exact Hrun|]. rewrite reconciled_getTokens.
  split; [simpl; by rewrite app_nil_r|]. split.
  - intros t Hin. apply knownTokens_elem in Hin.
    destruct Hin as ([a i] & Hin & Hc). simpl in Hc.
    destruct (cachedRecord_Some _ _ _ Hc) as [Hincached Ha].
    split; [done|]. rewrite Ha. destruct (Helem a i Hin) as [-> _]. eauto.
  - intros Hdistinct. subst eligible. unfold eligibleEntries.
    rewrite Hsize, bool_decide_eq_false_2 by lia.
    rewrite jsmap_of_list_entries.
    + apply fallback_known. intros t Hin. by apply cachedRecord_NoDup.
    + eapply sublist_NoDup; [exact Hdistinct|apply fallback_keys].
Qed.

End Pruning.

(** ** The further properties at concrete collaborators *)

(** X1 with 0xB delisted and a second network cached. *)
Lemma X1_witness :
  ∃ s',
    updateTokenIds env_delisted 1 [tA; tB] 3 1000 true s_networks = (Ok tt, s')
    ∧ pass_frame 1 s_networks s'.
Proof. apply (X1_updateTokenIds_contained env_delisted). lia. Defined.

(** X2 with no query answered. *)
Lemma X2_witness :
  ∃ s',
    updateTokenIds env_idsDown 1 [tA; tB] 3 1000 true s_cached = (Ok tt, s')
    ∧ store s' = store s_cached
    ∧ persisted s' = persisted s_cached
    ∧ timers s'
      = timers s_cached
        ++ [{| timer_delay := 1000; timer_networkId := 1;
               timer_tokens := [tA; tB]; timer_maxRetries := (3 - 1)%Z;
               timer_retryDelay := (1000 * 2)%Z |}].
Proof.
  apply (X2_all_failed_persists_nothing env_idsDown 1 [tA; tB] 3 1000 true s_cached).
  - lia.
  - intros n t _. left. exact I.
Defined.

(** X3 with 0xB delisted. *)
Lemma X3_witness :
  let s' := (updateTokenIds env_delisted 1 [tA; tB] 3 1000 true s_cached).2 in
  let before := TokenDetails.address <$> tokenListApi_getTokens 1 s_cached in
  let after := TokenDetails.address <$> tokenListApi_getTokens 1 s' in
  after `sublist_of` before
  ∧ (NoDup before → NoDup after)
  ∧ length (tokenListApi_getTokens 1 s') ≤ length (tokenListApi_getTokens 1 s_cached).
Proof. apply (X3_id_refresh_keeps_addresses env_delisted). lia. Defined.

(** X4 with 0xB cached under a stale id: the record cached afterwards is
    the stale record but for its id. *)
Lemma X4_witness :
  TokenDetails.set_id tB_stale 1
    ∈ tokenListApi_getTokens 1
        (updateTokenIds env_noRegistry 1 [tA; tB_stale] 3 1000 true s_stale).2
  ∧ ∃ t, (t ∈ tokenListApi_getTokens 1 s_stale ∨ t ∈ [tA; tB_stale])
         ∧ same_but_id t (TokenDetails.set_id tB_stale 1).
Proof.
  assert (Hin : TokenDetails.set_id tB_stale 1
                  ∈ tokenListApi_getTokens 1
                      (updateTokenIds env_noRegistry 1 [tA; tB_stale] 3 1000 true
                         s_stale).2).
  { vm_compute. apply list_elem_of_further, list_elem_of_here. }
  split; [exact Hin|].
  apply (X4_id_refresh_changes_only_ids env_noRegistry 1 [tA; tB_stale] 3 1000
           true s_stale); [lia|exact Hin].
Defined.

(** X5 with every query about 0xB throwing. *)
Lemma X5_witness :
  ∃ s1 s2 s3,
    updateTokenIds env_flaky 1 [tA; tB] 3 1000 false s_cached = (Ok tt, s1)
    ∧ timers s1 = [{| timer_delay := 1000; timer_networkId := 1;
                      timer_tokens := [tB]; timer_maxRetries := 2;
                      timer_retryDelay := 1000 |}]
    ∧ fireTimer env_flaky s1 = (Ok tt, s2)
    ∧ timers s2 = [{| timer_delay := 1000; timer_networkId := 1;
                      timer_tokens := [tB]; timer_maxRetries := 1;
                      timer_retryDelay := 2000 |}]
    ∧ fireTimer env_flaky s2 = (Ok tt, s3)
    ∧ timers s3 = [{| timer_delay := 2000; timer_networkId := 1;
                      timer_tokens := [tB]; timer_maxRetries := 0;
                      timer_retryDelay := 4000 |}].
Proof.
  assert (Hfailing : filter (λ t, TokenDetails.address t ∈ ({["0xB"]} : gset string))
                       [tA; tB] = [tB]) by (vm_compute; reflexivity).
  assert (H := X5_backoff_off_first_round_only env_flaky 1 {["0xB"]} [tA; tB]
                 1000 s_cached).
  cbv zeta in H. rewrite Hfailing in H. apply H.
  - intros n t _ Hin. apply elem_of_singleton in Hin. rewrite Hin.
    left. exact I.
  - intros n t Ht Hnot. apply elem_of_cons in Ht. destruct Ht as [->|Ht].
    + right. split; [reflexivity|]. by eexists.
    + apply list_elem_of_singleton in Ht. subst t.
      exfalso. apply Hnot. by apply elem_of_singleton.
  - discriminate.
  - reflexivity.
Defined.

(** X6 with a timer for 0xB that has no retry left. *)
Lemma X6_witness :
  let tm := {| timer_delay := 4000; timer_networkId := 1; timer_tokens := [tB];
               timer_maxRetries := 0; timer_retryDelay := 8000 |} in
  let s := set_areTokensUpdated (λ _, {[1%Z]}) (set_timers (λ _, [tm]) s_cached) in
  (fireTimer env_flaky s).1 = Err (MaxRetriesExceeded 1 ["0xB"])
  ∧ (fireTimer env_flaky s).2 = set_timers (λ _, []) s
  ∧ (1%Z ∈ areTokensUpdated s →
     getTokens 1 (fireTimer env_flaky s).2
     = (tokenListApi_getTokens 1 s, (fireTimer env_flaky s).2)).
Proof.
  intros tm s.
  apply (X6_exhausted_retries_stay_flagged env_flaky s tm []).
  - reflexivity.
  - simpl. lia.
Defined.

(** X7 with slots 0 and 2 holding 0xA: the scan maps 0xA to slot 2. *)
Lemma X7_witness :
  ∃ listed s',
    fetchAddressesAndIds env_sameAddress 1 3 s_cached = (Ok listed, s')
    ∧ NoDup (JsMap.keys listed)
    ∧ JsMap.get listed "0xA" = Some 2%Z.
Proof.
  destruct (X7_scan_maps_address_to_last_slot env_sameAddress 1 3
              (λ i, if decide (i = 1%Z) then "0xB" else "0xA") s_cached)
    as (listed & s' & Hrun & _ & Hnd & Hget).
  - intros k i _. reflexivity.
  - exists listed, s'. split; [exact Hrun|]. split; [exact Hnd|].
    apply Hget. split; [lia|]. split; [reflexivity|]. intros j Hj. lia.
Defined.

(** X8 with slot 2 never answered. *)
Lemma X8_witness :
  ∃ e s',
    updateTokenDetails env_slotDown 1 3 s_cached = (Err e, s')
    ∧ store s' = store s_cached ∧ persisted s' = persisted s_cached.
Proof.
  apply (X8_unreadable_slot_fails_reconciliation env_slotDown 1 3 2 s_cached).
  - lia.
  - intros k. exact I.
Defined.

(** X9 with a registry holding 0xA and 0xC. *)
Lemma X9_witness :
  ∃ eligible,
    _getFilteredIdsMap env_registry 1 3 s_cached
    = (Ok eligible, (_getFilteredIdsMap env_registry 1 3 s_cached).2)
    ∧ NoDup (JsMap.keys eligible)
    ∧ ∀ a i, (a, i) ∈ eligible
             ↔ JsMap.get [("0xA", 0%Z); ("0xB", 1%Z); ("0xC", 2%Z)] a = Some i
               ∧ allowed (list_to_set ["0xA"; "0xC"])
                   (tokenListApi_getTokens 1 s_cached) a.
Proof.
  apply (X9_eligible_is_listed_and_allowed env_registry 1 3 s_cached
           (list_to_set ["0xA"; "0xC"])
           (retry env_registry (fetchTcrAddresses env_registry 1) s_cached).2).
  - vm_compute. reflexivity.
  - vm_compute. reflexivity.
Defined.

(** X10 with a registry holding 0xA and 0xC. *)
Lemma X10_witness :
  NoDup (TokenDetails.address
           <$> tokenListApi_getTokens 1
                 (updateTokenDetails env_registry 1 3 s_cached).2).
Proof.
  apply (X10_reconciled_addresses_unique env_registry 1 3 s_cached).
  vm_compute. reflexivity.
Defined.

(** X11 with no registry. *)
Lemma X11_witness :
  ∃ s',
    updateTokenDetails env_noRegistry 1 3 s_cached = (Ok tt, s')
    ∧ tokenListApi_getTokens 1 s' = [tA; tB].
Proof.
  destruct (X11_no_registry_only_prunes env_noRegistry 1 3 s_cached ∅
              (retry env_noRegistry (fetchTcrAddresses env_noRegistry 1) s_cached).2
              [("0xA", 0%Z); ("0xB", 1%Z); ("0xC", 2%Z)]
              (_getFilteredIdsMap env_noRegistry 1 3 s_cached).2)
    as (s' & Hrun & _ & _ & Hexact).
  - vm_compute. reflexivity.
  - reflexivity.
  - vm_compute. reflexivity.
  - exists s'. split; [exact Hrun|]. rewrite Hexact.
    + vm_compute. reflexivity.
    + vm_compute. repeat constructor; intros Hin.
      * apply list_elem_of_singleton in Hin. discriminate Hin.
      * by apply not_elem_of_nil in Hin.
Defined.

(** X12 with a registry holding 0xA and 0xC: the cached 0xB is dropped. *)
Lemma X12_witness :
  "0xB" ∉ TokenDetails.address
          <$> tokenListApi_getTokens 1 (updateTokenDetails env_registry 1 3 s_cached).2.
Proof.
  destruct (X12_reconciliation_keeps_listed_and_allowed env_registry 1 3 s_cached
              (list_to_set ["0xA"; "0xC"])
              (retry env_registry (fetchTcrAddresses env_registry 1) s_cached).2
              [("0xA", 0%Z); ("0xB", 1%Z); ("0xC", 2%Z)]
              (_getFilteredIdsMap env_registry 1 3 s_cached).2
              (updateTokenDetails env_registry 1 3 s_cached).2)
    as (_ & Hdropped & _).
  - vm_compute. reflexivity.
  - vm_compute. reflexivity.
  - vm_compute. reflexivity.
  - apply (Hdropped tB).
    + apply list_elem_of_further, list_elem_of_here.
    + right. unfold allowed. vm_compute. intros Hin. discriminate Hin.
Defined.

(** X13 with the probe of 0xC throwing. *)
Lemma X13_witness :
  let s' := (updateTokenDetails env_probeThrows 1 3 s_cached).2 in
  store s' = store s_cached
  ∧ persisted s' = persisted s_cached
  ∧ areTokensUpdated s' = areTokensUpdated s_cached
  ∧ timers s' = timers s_cached
  ∧ background s' = background s_cached
  ∧ ∃ calls, trace s' = trace s_cached ++ calls.
Proof.
  apply (X13_failed_reconciliation_persists_nothing env_probeThrows 1 3 s_cached
           (ExternalError "timeout")).
  vm_compute. reflexivity.
Defined.

(** ** The calls of the id-only refresh *)

Section IdRefreshCalls.

Context (env : Collaborators).

Lemma updateTokenIdOrIndicateFailure_calls networkId t s :
  ∃ calls,
    (updateTokenIdOrIndicateFailure env networkId t s).2
    = set_trace (λ l, l ++ calls) s
    ∧ (calls = [CallHasToken networkId (TokenDetails.address t)]
       ∨ calls = [CallHasToken networkId (TokenDetails.address t);
                  CallGetTokenIdByAddress networkId (TokenDetails.address t)]).
Proof.
  unfold updateTokenIdOrIndicateFailure, exchangeApi_hasToken,
    exchangeApi_getTokenIdByAddress, external.
  unfold_M. simpl.
  destruct (exchange_hasToken env _ _ _) as [[|]|e]; simpl.
  - eexists. split; [|right; reflexivity].
    destruct (exchange_getTokenIdByAddress env _ _ _); simpl;
      unfold set_trace; simpl; by rewrite <- app_assoc.
  - eexists. split; [|left; reflexivity]. done.
  - eexists. split; [|left; reflexivity]. done.
Qed.

Lemma refresh_batch_calls networkId tokens s :
  ∃ calls,
    (promise_all (updateTokenIdOrIndicateFailure env networkId <$> tokens) s).2
    = set_trace (λ l, l ++ calls) s
    ∧ length calls ≤ 2 * length tokens
    ∧ Forall (λ c, ∃ t, t ∈ tokens
                ∧ (c = CallHasToken networkId (TokenDetails.address t)
                   ∨ c = CallGetTokenIdByAddress networkId (TokenDetails.address t)))
        calls.
Proof.
  revert s. induction tokens as [|t tokens IH]; intros s.
  - exists []. simpl. rewrite set_trace_nil. split; [done|]. split; [lia|done].
  - rewrite fmap_cons. cbn [promise_all].
    destruct (updateTokenIdOrIndicateFailure_calls networkId t s)
      as (c1 & Hs1 & Hc1).
    destruct (updateTokenIdOrIndicateFailure_outcome env networkId t s)
      as (s1 & H1 & _).
    rewrite H1 in Hs1. simpl in Hs1. subst s1.
    rewrite (bind_ok _ _ _ _ _ H1).
    destruct (IH (set_trace (λ l, l ++ c1) s)) as (c2 & Hs2 & Hlen & Hall).
    destruct (refresh_batch env networkId tokens (set_trace (λ l, l ++ c1) s))
      as (results & s2 & H2 & _).
    rewrite H2 in Hs2. simpl in Hs2. subst s2.
    rewrite (bind_ok _ _ _ _ _ H2). unfold mret, M_ret. simpl.
    exists (c1 ++ c2). split; [by rewrite set_trace_app|]. split.
    + rewrite length_app. destruct Hc1 as [-> | ->]; simpl; lia.
    + apply Forall_app. split.
      * destruct Hc1 as [-> | ->]; repeat constructor;
          exists t; (split; [by left|]); auto.
      * eapply Forall_impl; [exact Hall|]. simpl.
        intros c (t' & Ht' & Hc). exists t'. split; [by right|done].
Qed.

(** X15: whatever its arguments, a pass of [updateTokenIds] asks the
    contract about the tokens of its batch only: every call it makes is
    [hasToken] or [getTokenIdByAddress] for the address of a token of the
    batch, and it makes at most two calls per token; it makes no scan, no
    registry query and no probe. *)
Theorem X15_id_refresh_calls_only_its_batch networkId tokens maxRetries retryDelay
    (exponentialBackOff : bool) s :
  let s' := (updateTokenIds env networkId tokens maxRetries retryDelay
               exponentialBackOff s).2 in
  ∃ calls,
    trace s' = trace s ++ calls
    ∧ length calls ≤ 2 * length tokens
    ∧ Forall (λ c, ∃ t, t ∈ tokens
                ∧ (c = CallHasToken networkId (TokenDetails.address t)
                   ∨ c = CallGetTokenIdByAddress networkId (TokenDetails.address t)))
        calls.
Proof.
  intros s'. subst s'.
  destruct (decide (0 < maxRetries)%Z) as [Hmax|Hmax].
  - destruct (refresh_batch_calls networkId tokens s) as (calls & Hs1 & Hlen & Hall).
    destruct (refresh_batch env networkId tokens s) as (results & s1 & Hbatch & _).
    rewrite Hbatch in Hs1. simpl in Hs1. subst s1.
    rewrite (updateTokenIds_steps env _ _ _ retryDelay exponentialBackOff _ _ _
               Hmax Hbatch). cbn [snd].
    exists calls. split; [|done].
    destruct (_ || _);
      destruct (bool_decide (0 < length (failedTokens results))); done.
  - unfold updateTokenIds. rewrite bool_decide_eq_true_2 by lia.
    exists []. simpl. rewrite app_nil_r. split; [done|]. split; [lia|done].
Qed.

End IdRefreshCalls.
